(** * Continuum client: the workflow handlers of [client/src/App.jsx]

    A shallow embedding of the React component [App]: its eleven state
    cells, the three asynchronous handlers [handleAuth], [handleFetch] and
    [handleSave], the synchronous [handleExport] and the inline
    "Start Over" handler.

    The handlers talk to the outside world through [fetch], [prompt],
    [alert], [window.open] and a file download.  They are written here in a
    small state-and-exception monad that threads the React state and
    collects, in order, the events the handler emits.
    The replies of the network and of the user are not under the program's
    control: they come from an environment [Env] over which every theorem
    quantifies. *)

From Stdlib Require Import List String Ascii Bool Arith ZArith QArith Lia.
From Stdlib Require Import Qround Qpower Qabs Lqa.
From Stdlib Require Import DecimalString Sorted.
From Stdlib Require Uint63 PrimFloat FloatOps SpecFloat.
Import ListNotations.

Close Scope Q_scope.
Open Scope string_scope.
Open Scope list_scope.

(* ------------------------------------------------------------------ *)
(** ** Data model *)

(** [useState('auth')]: auth, source, processing, results. *)
Inductive Step := auth | source | processing | results.

(** [useState('client')]: client, user. *)
Inductive AuthMode := client | user.

(** [useState('playlist')]: playlist, recs. *)
Inductive SourceMode := playlist | recs.

(** [mixLength] starts as the number 45; the number input later stores
    [e.target.value], which is text.  It is only ever passed on to the
    solver. *)
Inductive MixLength :=
| LengthNumber (n : Z)
| LengthText (s : string).

(** A track as the source lookup returns it. *)
Module RawTrack.
Record t := mk { id : string; name : string; artist : string; uri : string }.
End RawTrack.

(** A track as the feature lookup returns it: the fields the component
    reads are [id], [artist], [name], [uri], [key], [mode] and [BPM]. *)
Module EnrichedTrack.
Record t := mk {
  id : string; name : string; artist : string; uri : string;
  key : Z; mode : Z; BPM : Q }.
End EnrichedTrack.

(** The state cells of the component, in the order of their [useState]
    calls.  [progress] is a JavaScript number, a binary64 float; it is
    held here as the rational that float denotes, and the arithmetic that
    produces it rounds as binary64 arithmetic does (see [double]). *)
Record Session := mkSession {
  step : Step;
  authMode : AuthMode;
  sourceMode : SourceMode;
  inputValue : string;
  mixLength : MixLength;
  tracks : list EnrichedTrack.t;
  progress : Q;
  status : string;
  resultMix : list EnrichedTrack.t;
  savedUrl : string;
  error : string }.

Definition initialSession : Session :=
  mkSession auth client playlist "" (LengthNumber 45) [] 0 "" [] "" "".

(* ------------------------------------------------------------------ *)
(** ** The outside world *)

(** A JavaScript computation either completes with a value or throws; what
    the handlers read of a thrown value is its [message]. *)
Inductive Outcome (A : Type) :=
| Ok (a : A)
| Throw (message : string).
Arguments Ok {A} a.
Arguments Throw {A} message.

(** The bodies of the JSON replies, field by field as the handlers read
    them.  An optional field that is absent is [None].  A source reply
    that has neither [error] nor [tracks] makes [rawTracks.length] throw
    before anything else happens, which is what a faulting request does;
    it is a [Throw] below. *)
Module AuthUrlData.
Record t := mk { url : string }.
End AuthUrlData.

Module TokenData.
Record t := mk { success : bool; error : option string }.
End TokenData.

Module SourceData.
Record t := mk { tracks : list RawTrack.t; error : option string }.
End SourceData.

(** [{found, track}]: the track comes with a true [found]. *)
Inductive FeatData :=
| Found (track : EnrichedTrack.t)
| NotFound.

(** [{success, mix, message}]: the mix comes with a true [success], the
    optional message with a false one. *)
Inductive SolveData :=
| Solved (mix : list EnrichedTrack.t)
| Unsolved (message : option string).

Module SaveData.
Record t := mk { url : option string; error : option string }.
End SaveData.

(** The requests the component issues, with the JSON body of each. *)
Inductive Request :=
| GetAuthUrl                                             (* GET  /api/auth/url *)
| PostAuthToken (url : string)                           (* POST /api/auth/token *)
| PostPlaylist (id : string) (mode : AuthMode)           (* POST /api/playlist *)
| PostRecommendations (seed : string) (mode : AuthMode)  (* POST /api/recommendations *)
| PostFeatures (track : RawTrack.t)                      (* POST /api/features *)
| PostSolve (songs : list EnrichedTrack.t) (length : MixLength) (* POST /api/solve *)
| PostSave (uris : list string).                         (* POST /api/save *)

(** The environment answers each request; the answer may depend on how
    many requests were issued before it (the first argument), so a server
    is free to answer the same request differently each time.  [Throw]
    stands for a rejected [fetch] or a body that is not JSON.  [prompt] is
    the user's answer to the blocking dialog, [None] when it is
    cancelled. *)
Record Env := mkEnv {
  authUrl : nat -> Outcome AuthUrlData.t;
  authToken : nat -> string -> Outcome TokenData.t;
  playlistTracks : nat -> string -> AuthMode -> Outcome SourceData.t;
  recommendations : nat -> string -> AuthMode -> Outcome SourceData.t;
  features : nat -> RawTrack.t -> Outcome FeatData;
  solve : nat -> list EnrichedTrack.t -> MixLength -> Outcome SolveData;
  save : nat -> list string -> Outcome SaveData.t;
  prompt : string -> option string }.

(** A call of one of the state setters. *)
Inductive Update :=
| SetStep (s : Step)
| SetTracks (l : list EnrichedTrack.t)
| SetProgress (p : Q)
| SetStatus (s : string)
| SetResultMix (l : list EnrichedTrack.t)
| SetSavedUrl (u : string)
| SetError (e : string).

(** Everything a handler does that can be seen from outside. *)
Inductive Event :=
| SetState (u : Update)
| Fetch (r : Request)
| WindowOpen (url : string)
| Prompt (message : string)
| Alert (message : string)
| Download (filename text : string).

(** The current React state and the number of network requests issued so
    far. *)
Record World := mkWorld { sess : Session; calls : nat }.

Definition apply (u : Update) (s : Session) : Session :=
  match u with
  | SetStep x =>
      mkSession x (authMode s) (sourceMode s) (inputValue s) (mixLength s)
                (tracks s) (progress s) (status s) (resultMix s) (savedUrl s) (error s)
  | SetTracks x =>
      mkSession (step s) (authMode s) (sourceMode s) (inputValue s) (mixLength s)
                x (progress s) (status s) (resultMix s) (savedUrl s) (error s)
  | SetProgress x =>
      mkSession (step s) (authMode s) (sourceMode s) (inputValue s) (mixLength s)
                (tracks s) x (status s) (resultMix s) (savedUrl s) (error s)
  | SetStatus x =>
      mkSession (step s) (authMode s) (sourceMode s) (inputValue s) (mixLength s)
                (tracks s) (progress s) x (resultMix s) (savedUrl s) (error s)
  | SetResultMix x =>
      mkSession (step s) (authMode s) (sourceMode s) (inputValue s) (mixLength s)
                (tracks s) (progress s) (status s) x (savedUrl s) (error s)
  | SetSavedUrl x =>
      mkSession (step s) (authMode s) (sourceMode s) (inputValue s) (mixLength s)
                (tracks s) (progress s) (status s) (resultMix s) x (error s)
  | SetError x =>
      mkSession (step s) (authMode s) (sourceMode s) (inputValue s) (mixLength s)
                (tracks s) (progress s) (status s) (resultMix s) (savedUrl s) x
  end.

(* ------------------------------------------------------------------ *)
(** ** The handler monad *)

(** One run of a piece of handler code: how it ended, the world it left
    and, in order, the events it emitted. *)
Record Run (A : Type) := mkRun {
  outcome : Outcome A;
  world : World;
  events : list Event }.
Arguments mkRun {A} outcome world events.
Arguments outcome {A} r.
Arguments world {A} r.
Arguments events {A} r.

Definition M (A : Type) : Type := World -> Run A.

Definition ret {A} (a : A) : M A := fun w => mkRun (Ok a) w [].

Definition bind {A B} (m : M A) (k : A -> M B) : M B :=
  fun w =>
    match m w with
    | mkRun (Ok a) w1 evs =>
        match k a w1 with
        | mkRun o w2 evs' => mkRun o w2 (evs ++ evs')
        end
    | mkRun (Throw e) w1 evs => mkRun (Throw e) w1 evs
    end.

(** [throw new Error(e)]. *)
Definition throw {A} (e : string) : M A := fun w => mkRun (Throw e) w [].

(** [try { m } catch (e) { h(e.message) }]. *)
Definition try_catch {A} (m : M A) (h : string -> M A) : M A :=
  fun w =>
    match m w with
    | mkRun (Ok a) w1 evs => mkRun (Ok a) w1 evs
    | mkRun (Throw e) w1 evs =>
        match h e w1 with
        | mkRun o w2 evs' => mkRun o w2 (evs ++ evs')
        end
    end.

Declare Scope handler_scope.
Delimit Scope handler_scope with handler.
Notation "x <- m ;; k" := (bind m (fun x => k))
  (at level 61, m at next level, right associativity) : handler_scope.
Notation "m ;; k" := (bind m (fun _ => k))
  (at level 61, right associativity) : handler_scope.

Definition emit (e : Event) : M unit := fun w => mkRun (Ok tt) w [e].

Definition set (u : Update) : M unit :=
  fun w => mkRun (Ok tt) (mkWorld (apply u (sess w)) (calls w)) [SetState u].

Definition setStep (s : Step) : M unit := set (SetStep s).
Definition setTracks (l : list EnrichedTrack.t) : M unit := set (SetTracks l).
Definition setProgress (p : Q) : M unit := set (SetProgress p).
Definition setStatus (s : string) : M unit := set (SetStatus s).
Definition setResultMix (l : list EnrichedTrack.t) : M unit := set (SetResultMix l).
Definition setSavedUrl (u : string) : M unit := set (SetSavedUrl u).
Definition setError (e : string) : M unit := set (SetError e).

(** [await fetch(...)] followed by [await res.json()]: the request goes
    out, and the environment's answer to it is returned or thrown. *)
Definition fetch {A} (r : Request) (answer : nat -> Outcome A) : M A :=
  fun w => mkRun (answer (calls w)) (mkWorld (sess w) (S (calls w))) [Fetch r].

(** ** JavaScript odds and ends *)

(** Truthiness of a string: every string but the empty one. *)
Definition truthy (s : string) : bool :=
  match s with
  | EmptyString => false
  | String _ _ => true
  end.

(** Truthiness of an optional string field. *)
Definition present (x : option string) : bool :=
  match x with
  | Some s => truthy s
  | None => false
  end.

(** [x || fallback] where [x] is an optional string field. *)
Definition or_else (x : option string) (fallback : string) : string :=
  match x with
  | Some s => if truthy s then s else fallback
  | None => fallback
  end.

(** ["Error: " + x]: an absent field prints as [undefined]. *)
Definition to_text (x : option string) : string :=
  match x with
  | Some s => s
  | None => "undefined"
  end.

(** A counter inside a template literal prints in decimal. *)
Definition decimal (n : nat) : string := NilZero.string_of_uint (Nat.to_uint n).

(** [Array.prototype.join]. *)
Fixpoint join (sep : string) (l : list string) : string :=
  match l with
  | [] => ""
  | [x] => x
  | x :: rest => x ++ sep ++ join sep rest
  end.

Definition newline : string := String (ascii_of_nat 10) EmptyString.

(** *** JavaScript numbers

    A JavaScript number is an IEEE 754 binary64 float, and every
    arithmetic operation returns the float nearest to the exact result,
    ties going to the even significand.  A finite float is written here as
    the rational it denotes, and the rounding is written out: [double x]
    is the binary64 float nearest to the rational [x].  Exponent range,
    infinities and NaN are left out; the handlers only ever round
    quotients [i / n] with [i < n] an index and a length of an array, and
    their products by 100, which are 0 or lie between 2^-32 and 100. *)

(** [2^e]. *)
Definition pow2 (e : Z) : Q := (2 ^ e)%Q.

(** The integer nearest to [y], the even one of the two when [y] lies
    half way. *)
Definition rne (y : Q) : Z :=
  let q := Qfloor y in
  match Qcompare (y - inject_Z q) (1 # 2) with
  | Lt => q
  | Gt => (q + 1)%Z
  | Eq => if Z.even q then q else (q + 1)%Z
  end.

(** For [x > 0], the exponent [e] with [2^e <= x < 2^(e+1)]. *)
Definition ilog (x : Q) : Z :=
  let d := (Z.log2 (Qnum x) - Z.log2 (QDen x))%Z in
  if Qle_bool (pow2 d) x then d else (d - 1)%Z.

(** For [x > 0], the nearest number with a significand of 53 bits: [x] is
    scaled into [2^52, 2^53), rounded to an integer and scaled back. *)
Definition nearest (x : Q) : Q :=
  let e := (ilog x - 52)%Z in
  (inject_Z (rne (x / pow2 e)) * pow2 e)%Q.

Definition double (x : Q) : Q :=
  match Qnum x with
  | Z0 => 0%Q
  | Zpos _ => nearest x
  | Zneg _ => (- nearest (- x))%Q
  end.

(** [(i / rawTracks.length) * 100]: a division and a multiplication of
    numbers, each rounded.  The index and the length are integers below
    2^32, which are floats as they are. *)
Definition percent (i total : nat) : Q :=
  double (double (inject_Z (Z.of_nat i) / inject_Z (Z.of_nat total)) * 100)%Q.

(** The same expression evaluated by the machine's binary64 arithmetic,
    and the rational a finite float denotes. *)
Definition hardwarePercent (i total : nat) : PrimFloat.float :=
  PrimFloat.mul
    (PrimFloat.div (PrimFloat.of_uint63 (Uint63.of_Z (Z.of_nat i)))
                   (PrimFloat.of_uint63 (Uint63.of_Z (Z.of_nat total))))
    (PrimFloat.of_uint63 (Uint63.of_Z 100)).

Definition valueOf (f : PrimFloat.float) : option Q :=
  match FloatOps.Prim2SF f with
  | SpecFloat.S754_zero _ => Some 0%Q
  | SpecFloat.S754_finite s m e =>
      Some ((if s then - inject_Z (Zpos m) else inject_Z (Zpos m)) * pow2 e)%Q
  | _ => None
  end.

Definition agrees (i total : nat) : bool :=
  match valueOf (hardwarePercent i total) with
  | Some q => Qeq_bool q (percent i total)
  | None => false
  end.

(* ------------------------------------------------------------------ *)
(** ** The handlers *)

Section Handlers.

Variable env : Env.

Local Open Scope handler_scope.

(** [window.open(url, '_blank')], [prompt(message)], [alert(message)]. *)
Definition windowOpen (url : string) : M unit := emit (WindowOpen url).

Definition askPrompt (message : string) : M (option string) :=
  emit (Prompt message) ;; ret (prompt env message).

Definition alert (message : string) : M unit := emit (Alert message).

Definition redirectPrompt : string :=
  "Please paste the full redirected URL here:".

(** [handleAuth], lines 20-46.  [s] is the state the handler closed
    over when the button was rendered. *)
Definition handleAuth (s : Session) : M unit :=
  match authMode s with
  | client => setStep source
  | user =>
      try_catch
        (data <- fetch GetAuthUrl (authUrl env) ;;
         windowOpen (AuthUrlData.url data) ;;
         pasted <- askPrompt redirectPrompt ;;
         match pasted with
         | Some (String c rest) =>
             let pasted := String c rest in
             tokenData <- fetch (PostAuthToken pasted)
                                (fun n => authToken env n pasted) ;;
             if TokenData.success tokenData
             then setStep source
             else setError (or_else (TokenData.error tokenData) "Auth Failed")
         | _ => ret tt
         end)
        (fun e => setError e)
  end.

(** [`Processing [${i + 1}/${rawTracks.length}]: ${t.name}`]. *)
Definition processingStatus (total i : nat) (t : RawTrack.t) : string :=
  "Processing [" ++ decimal (i + 1) ++ "/" ++ decimal total ++ "]: "
  ++ RawTrack.name t.

(** The [for] loop of [handleFetch], lines 70-82, entered at index [i]
    with [rest] the tracks from index [i] on, [total] the value of
    [rawTracks.length] and [processed] the array built so far. *)
Fixpoint forLoop (total i : nat) (rest : list RawTrack.t)
         (processed : list EnrichedTrack.t) : M (list EnrichedTrack.t) :=
  match rest with
  | [] => ret processed
  | t :: rest' =>
      setProgress (percent i total) ;;
      setStatus (processingStatus total i t) ;;
      featData <- fetch (PostFeatures t) (fun n => features env n t) ;;
      match featData with
      | Found track => forLoop total (S i) rest' (processed ++ [track])
      | NotFound => forLoop total (S i) rest' processed
      end
  end.

(** The enrichment pipeline: the loop over all of [rawTracks], starting
    from an empty [processed]. *)
Definition enrich (rawTracks : list RawTrack.t) : M (list EnrichedTrack.t) :=
  forLoop (List.length rawTracks) 0 rawTracks [].

(** The request for the track source, lines 54-61: endpoint and payload
    follow [sourceMode], and the answer is the one of that endpoint. *)
Definition sourceRequest (s : Session) : Request :=
  match sourceMode s with
  | playlist => PostPlaylist (inputValue s) (authMode s)
  | recs => PostRecommendations (inputValue s) (authMode s)
  end.

Definition sourceAnswer (s : Session) (n : nat) : Outcome SourceData.t :=
  match sourceMode s with
  | playlist => playlistTracks env n (inputValue s) (authMode s)
  | recs => recommendations env n (inputValue s) (authMode s)
  end.

(** The body of the [try] block of [handleFetch], lines 54-101. *)
Definition fetchBody (s : Session) : M unit :=
  data <- fetch (sourceRequest s) (sourceAnswer s) ;;
  match SourceData.error data with
  | Some (String c rest) => throw (String c rest)
  | _ =>
      let rawTracks := SourceData.tracks data in
      processed <- enrich rawTracks ;;
      setTracks processed ;;
      setStatus "Running Solver..." ;;
      setProgress 100 ;;
      solveData <- fetch (PostSolve processed (mixLength s))
                         (fun n => solve env n processed (mixLength s)) ;;
      match solveData with
      | Solved mix => setResultMix mix ;; setStep results
      | Unsolved message =>
          setError (or_else message "Solver failed") ;; setStep source
      end
  end.

(** [handleFetch], lines 48-107. *)
Definition handleFetch (s : Session) : M unit :=
  setStep processing ;;
  setError "" ;;
  setStatus "Fetching tracks..." ;;
  try_catch (fetchBody s) (fun e => setError e ;; setStep source).

(** [handleSave], lines 109-124. *)
Definition handleSave (s : Session) : M unit :=
  try_catch
    (let uris := map EnrichedTrack.uri (resultMix s) in
     data <- fetch (PostSave uris) (fun n => save env n uris) ;;
     match SaveData.url data with
     | Some (String c rest) => setSavedUrl (String c rest)
     | _ => alert ("Error: " ++ to_text (SaveData.error data))
     end)
    (fun e => alert e).

(** [handleExport], lines 126-134: the text is wrapped in a blob and
    downloaded through a synthetic link named [mix.txt]. *)
Definition exportText (mix : list EnrichedTrack.t) : string :=
  join newline
       (map (fun t => (EnrichedTrack.artist t ++ " - " ++ EnrichedTrack.name t)%string)
            mix).

Definition handleExport (s : Session) : M unit :=
  let text := exportText (resultMix s) in
  emit (Download "mix.txt" text).

(** The "Start Over" button, line 214: [() => setStep('source')]. *)
Definition handleRestart (s : Session) : M unit := setStep source.

End Handlers.

(** A click: the handler runs on the current world and closes over the
    state of the render that showed the button. *)
Definition click (h : Session -> M unit) (w : World) : Run unit := h (sess w) w.

(** The world right after the component mounted in state [s]. *)
Definition mount (s : Session) : World := mkWorld s 0.

(* ------------------------------------------------------------------ *)
(** ** Observations on a run *)

(** The network requests among the events, in order. *)
Fixpoint requests (evs : list Event) : list Request :=
  match evs with
  | [] => []
  | Fetch r :: evs' => r :: requests evs'
  | _ :: evs' => requests evs'
  end.

(** The setter calls among the events, in order. *)
Fixpoint updates (evs : list Event) : list Update :=
  match evs with
  | [] => []
  | SetState u :: evs' => u :: updates evs'
  | _ :: evs' => updates evs'
  end.

(** For each per-track request among the events, in order: the value most
    recently passed to [setProgress] when the request was sent, [current]
    being that value before the first event. *)
Fixpoint progressAtCalls (current : option Q) (evs : list Event) : list (option Q) :=
  match evs with
  | [] => []
  | SetState (SetProgress p) :: evs' => progressAtCalls (Some p) evs'
  | Fetch (PostFeatures _) :: evs' => current :: progressAtCalls current evs'
  | _ :: evs' => progressAtCalls current evs'
  end.

(** The values passed to [setProgress], in order. *)
Fixpoint progressValues (evs : list Event) : list Q :=
  match evs with
  | [] => []
  | SetState (SetProgress p) :: evs' => p :: progressValues evs'
  | _ :: evs' => progressValues evs'
  end.

(** The successive answers of the feature service to requests for the
    tracks [raw], the first of them being request number [n]. *)
Fixpoint answers (env : Env) (n : nat) (raw : list RawTrack.t)
  : list (Outcome FeatData) :=
  match raw with
  | [] => []
  | t :: raw' => features env n t :: answers env (S n) raw'
  end.

(** The message of the first fault among some answers, if any. *)
Fixpoint firstThrow {A} (l : list (Outcome A)) : option string :=
  match l with
  | [] => None
  | Ok _ :: l' => firstThrow l'
  | Throw m :: _ => Some m
  end.

(** How many of the answers a sequential caller gets to see: all of them,
    or those up to and including the first fault. *)
Fixpoint issued {A} (l : list (Outcome A)) : nat :=
  match l with
  | [] => 0
  | Ok _ :: l' => S (issued l')
  | Throw _ :: _ => 1
  end.

(** The tracks of the answers that report [found]. *)
Fixpoint foundTracks (l : list (Outcome FeatData)) : list EnrichedTrack.t :=
  match l with
  | [] => []
  | Ok (Found track) :: l' => track :: foundTracks l'
  | _ :: l' => foundTracks l'
  end.

(** [l1] is [l2] with some elements left out. *)
Inductive Subseq {A : Type} : list A -> list A -> Prop :=
| Subseq_nil : Subseq [] []
| Subseq_keep x l1 l2 : Subseq l1 l2 -> Subseq (x :: l1) (x :: l2)
| Subseq_drop x l1 l2 : Subseq l1 l2 -> Subseq l1 (x :: l2).

(** [s'] differs from [s] at most in [progress] and [status]. *)
Definition sameButProgress (s s' : Session) : Prop :=
  apply (SetStatus (status s)) (apply (SetProgress (progress s)) s') = s.

(** The three setter calls [handleFetch] opens with, and the session they
    leave. *)
Definition opening : list Event :=
  [SetState (SetStep processing); SetState (SetError "");
   SetState (SetStatus "Fetching tracks...")].

Definition opened (s : Session) : Session :=
  apply (SetStatus "Fetching tracks...")
        (apply (SetError "") (apply (SetStep processing) s)).

(** The setter calls and the request between the end of the loop and the
    solver's answer, and the session they leave. *)
Definition solving (processed : list EnrichedTrack.t) (len : MixLength) : list Event :=
  [SetState (SetTracks processed); SetState (SetStatus "Running Solver...");
   SetState (SetProgress 100); Fetch (PostSolve processed len)].

Definition handedOver (processed : list EnrichedTrack.t) (s : Session) : Session :=
  apply (SetProgress 100)
        (apply (SetStatus "Running Solver...") (apply (SetTracks processed) s)).

(** The [catch] block of [handleFetch]: its setter calls and the session
    they leave. *)
Definition caught (m : string) : list Event :=
  [SetState (SetError m); SetState (SetStep source)].

Definition recovered (m : string) (s : Session) : Session :=
  apply (SetStep source) (apply (SetError m) s).

(** One line of the exported file. *)
Definition line (t : EnrichedTrack.t) : string :=
  EnrichedTrack.artist t ++ " - " ++ EnrichedTrack.name t.

(* ------------------------------------------------------------------ *)
(** ** Sample scenarios *)

Module Sample.

Definition raw (id name artist : string) : RawTrack.t :=
  RawTrack.mk id name artist ("spotify:track:" ++ id).

Definition enriched (t : RawTrack.t) : EnrichedTrack.t :=
  EnrichedTrack.mk (RawTrack.id t) (RawTrack.name t) (RawTrack.artist t)
                   (RawTrack.uri t) 7 1 124.

Definition rawTracks : list RawTrack.t :=
  [raw "t1" "Around the World" "Daft Punk"; raw "t2" "Da Funk" "Daft Punk"].

Definition callback : string := "http://localhost:8888/callback?code=abc".

(** A backend on which everything succeeds: the user pastes the
    callback URL, both tracks are known to the feature service, the
    solver keeps the songs in the order it received them and the
    playlist is saved. *)
Definition backend : Env :=
  mkEnv (fun _ => Ok (AuthUrlData.mk "https://accounts.example/authorize"))
        (fun _ _ => Ok (TokenData.mk true None))
        (fun _ _ _ => Ok (SourceData.mk rawTracks None))
        (fun _ _ _ => Ok (SourceData.mk rawTracks None))
        (fun _ t => Ok (Found (enriched t)))
        (fun _ songs _ => Ok (Solved songs))
        (fun _ _ => Ok (SaveData.mk (Some "https://open.example/playlist/1") None))
        (fun _ => Some callback).

(** The same backend, except that the token exchange is refused the
    first time it is tried (it is then request number 1). *)
Definition refusingOnce : Env :=
  mkEnv (authUrl backend)
        (fun n _ => Ok (TokenData.mk (negb (n =? 1)%nat) None))
        (playlistTracks backend) (recommendations backend)
        (features backend) (solve backend) (save backend) (prompt backend).

(** The same backend, except that the feature service answers with a
    record of its own, under an identifier the client never sent. *)
Definition relabelling : Env :=
  mkEnv (authUrl backend) (authToken backend)
        (playlistTracks backend) (recommendations backend)
        (fun _ t => Ok (Found (EnrichedTrack.mk "gsb-991" (RawTrack.name t)
                                 (RawTrack.artist t) (RawTrack.uri t) 7 1 124)))
        (solve backend) (save backend) (prompt backend).

(** The same backend, except that the feature service knows none of the
    tracks and the solver then reports that it has nothing to work
    with. *)
Definition knowingNothing : Env :=
  mkEnv (authUrl backend) (authToken backend)
        (playlistTracks backend) (recommendations backend)
        (fun _ _ => Ok NotFound)
        (fun _ _ _ => Ok (Unsolved (Some "no feasible mix")))
        (save backend) (prompt backend).

(** The same backend, except that the feature service does not know the
    track [t1]. *)
Definition selective : Env :=
  mkEnv (authUrl backend) (authToken backend)
        (playlistTracks backend) (recommendations backend)
        (fun _ t => if String.eqb (RawTrack.id t) "t1" then Ok NotFound
                    else Ok (Found (enriched t)))
        (solve backend) (save backend) (prompt backend).

(** The same backend, except that request number 2, which is the second
    feature request of a run that starts a fresh session, is lost on the
    network, and that saving is refused. *)
Definition flaky : Env :=
  mkEnv (authUrl backend) (authToken backend)
        (playlistTracks backend) (recommendations backend)
        (fun n t => if (n =? 2)%nat then Throw "Failed to fetch"
                    else Ok (Found (enriched t)))
        (solve backend)
        (fun _ _ => Ok (SaveData.mk None (Some "token expired")))
        (prompt backend).

(** The component on the configuration screen, in client mode. *)
Definition configuring : Session :=
  mkSession source client playlist "37i9dQZF1DX4dyzvuaRJ0n" (LengthNumber 45)
            [] 0 "" [] "" "".

(** The component right after the user picked "User Authentication". *)
Definition userSession : Session :=
  mkSession auth user playlist "" (LengthNumber 45) [] 0 "" [] "" "".

(** "Continue", then "Generate Mix", then "Save to Spotify", on the
    [backend] above. *)
Definition authenticated : World :=
  world (click (handleAuth backend) (mount userSession)).
Definition mixed : World := world (click (handleFetch backend) authenticated).
Definition saved : World := world (click (handleSave backend) mixed).

End Sample.

(* ------------------------------------------------------------------ *)
(** ** The screen *)

(** The inline [onChange] handlers of the radio buttons (lines 147 and
    151), of the source selector (line 165), of the text input (line 178)
    and of the number input (line 188).  Each calls one setter, and none of
    these setters is called anywhere else.  The number input stores
    [e.target.value], which is text. *)
Inductive Edit :=
| SetAuthMode (m : AuthMode)
| SetSourceMode (m : SourceMode)
| SetInputValue (v : string)
| SetMixLength (v : string).

Definition edit (e : Edit) (s : Session) : Session :=
  match e with
  | SetAuthMode x =>
      mkSession (step s) x (sourceMode s) (inputValue s) (mixLength s)
                (tracks s) (progress s) (status s) (resultMix s) (savedUrl s) (error s)
  | SetSourceMode x =>
      mkSession (step s) (authMode s) x (inputValue s) (mixLength s)
                (tracks s) (progress s) (status s) (resultMix s) (savedUrl s) (error s)
  | SetInputValue x =>
      mkSession (step s) (authMode s) (sourceMode s) x (mixLength s)
                (tracks s) (progress s) (status s) (resultMix s) (savedUrl s) (error s)
  | SetMixLength x =>
      mkSession (step s) (authMode s) (sourceMode s) (inputValue s) (LengthText x)
                (tracks s) (progress s) (status s) (resultMix s) (savedUrl s) (error s)
  end.

(** What the user can do to the component. *)
Inductive Control :=
| Change (e : Edit)
| Continue          (* onClick={handleAuth}, line 155 *)
| GenerateMix       (* onClick={handleFetch}, line 192 *)
| StartOver         (* line 214 *)
| ExportMix         (* onClick={handleExport}, line 215 *)
| SaveToSpotify.    (* onClick={handleSave}, line 217 *)

(** The controls that the render of state [s] puts on the screen, lines
    142-221: each card is rendered for one value of [step], the processing
    card holds no control, and the save button is rendered only when
    [authMode === 'user']. *)
Definition offered (s : Session) (c : Control) : bool :=
  match step s with
  | auth =>
      match c with
      | Change (SetAuthMode _) | Continue => true
      | _ => false
      end
  | source =>
      match c with
      | Change (SetSourceMode _) | Change (SetInputValue _)
      | Change (SetMixLength _) | GenerateMix => true
      | _ => false
      end
  | processing => false
  | results =>
      match c with
      | StartOver | ExportMix => true
      | SaveToSpotify =>
          match authMode s with
          | user => true
          | client => false
          end
      | _ => false
      end
  end.

(** Line 140: the error banner is rendered when [error] is truthy. *)
Definition errorShown (s : Session) : bool := truthy (error s).

(** What using a control does.  An edit emits nothing that [Event]
    records. *)
Definition perform (env : Env) (c : Control) (w : World) : Run unit :=
  match c with
  | Change e => mkRun (Ok tt) (mkWorld (edit e (sess w)) (calls w)) []
  | Continue => click (handleAuth env) w
  | GenerateMix => click (handleFetch env) w
  | StartOver => click handleRestart w
  | ExportMix => click handleExport w
  | SaveToSpotify => click (handleSave env) w
  end.

(** The worlds a user can bring the freshly mounted component to, using
    only controls that are on the screen and letting each handler finish
    before the next control is used, together with everything emitted on
    the way. *)
Inductive Reaches (env : Env) : World -> list Event -> Prop :=
| Reaches_mount : Reaches env (mount initialSession) []
| Reaches_perform w evs c :
    Reaches env w evs ->
    offered (sess w) c = true ->
    Reaches env (world (perform env c w)) (evs ++ events (perform env c w)).

(** [String.prototype.split] on the newline character. *)
Fixpoint splitLines (s : string) : list string :=
  match s with
  | EmptyString => [""]
  | String c rest =>
      if Ascii.eqb c (ascii_of_nat 10) then "" :: splitLines rest
      else match splitLines rest with
           | [] => [String c ""]
           | l :: ls => String c l :: ls
           end
  end.

(** No newline character occurs in [s]. *)
Fixpoint oneLine (s : string) : bool :=
  match s with
  | EmptyString => true
  | String c rest => negb (Ascii.eqb c (ascii_of_nat 10)) && oneLine rest
  end.

(* ------------------------------------------------------------------ *)
(** ** Authentication *)

(** C8.  With [authMode = client] a click on "Continue" moves the session
    to [source] whatever the other state cells hold; the handler sends no
    request and emits nothing but that one [setStep]. *)
Theorem handleAuth_client_goes_to_source (env : Env) (w : World) :
  authMode (sess w) = client ->
  let r := click (handleAuth env) w in
  outcome r = Ok tt /\
  step (sess (world r)) = source /\
  requests (events r) = [] /\
  events r = [SetState (SetStep source)] /\
  world r = mkWorld (apply (SetStep source) (sess w)) (calls w).
Proof.
  intros Hmode. unfold click, handleAuth. rewrite Hmode. cbn.
  repeat split.
Qed.

Lemma handleAuth_client_goes_to_source_witness :
  let w := mkWorld (mkSession results client recs "Daft Punk" (LengthText "30")
                              [] 100 "Running Solver..." [] "" "stale") 7 in
  let env := mkEnv (fun _ => Throw "offline") (fun _ _ => Throw "offline")
                   (fun _ _ _ => Throw "offline") (fun _ _ _ => Throw "offline")
                   (fun _ _ => Throw "offline") (fun _ _ _ => Throw "offline")
                   (fun _ _ => Throw "offline") (fun _ => None) in
  step (sess (world (click (handleAuth env) w))) = source.
Proof.
  intros w env.
  exact (proj1 (proj2 (handleAuth_client_goes_to_source env w eq_refl))).
Defined.

(** C10.  In the user flow, once the authorization URL has been obtained
    and opened, a prompt that is cancelled or left empty ends the handler:
    the only request sent is the one for the URL, no token exchange takes
    place, no setter is called and the session is exactly what it was. *)
Theorem handleAuth_prompt_dismissed (env : Env) (w : World) (data : AuthUrlData.t) :
  authMode (sess w) = user ->
  authUrl env (calls w) = Ok data ->
  prompt env redirectPrompt = None \/ prompt env redirectPrompt = Some "" ->
  let r := click (handleAuth env) w in
  outcome r = Ok tt /\
  sess (world r) = sess w /\
  updates (events r) = [] /\
  requests (events r) = [GetAuthUrl] /\
  (forall url, ~ In (Fetch (PostAuthToken url)) (events r)) /\
  events r = [Fetch GetAuthUrl; WindowOpen (AuthUrlData.url data);
              Prompt redirectPrompt].
Proof.
  intros Hmode Hurl Hprompt.
  unfold click, handleAuth. rewrite Hmode.
  unfold try_catch, bind, fetch, windowOpen, askPrompt, emit, ret, bind.
  cbn. rewrite Hurl. cbn.
  assert (Hev : forall url,
             ~ In (Fetch (PostAuthToken url))
                  [Fetch GetAuthUrl; WindowOpen (AuthUrlData.url data);
                   Prompt redirectPrompt]).
  { intros url [H | [H | [H | []]]]; discriminate H. }
  destruct Hprompt as [Hp | Hp]; rewrite Hp; cbn; repeat split; exact Hev.
Qed.

Lemma handleAuth_prompt_dismissed_witness :
  let w := mount (mkSession auth user playlist "" (LengthNumber 45)
                            [] 0 "" [] "" "") in
  let env := mkEnv (fun _ => Ok (AuthUrlData.mk "https://accounts.example/authorize"))
                   (fun _ _ => Ok (TokenData.mk true None))
                   (fun _ _ _ => Throw "offline") (fun _ _ _ => Throw "offline")
                   (fun _ _ => Throw "offline") (fun _ _ _ => Throw "offline")
                   (fun _ _ => Throw "offline") (fun _ => None) in
  sess (world (click (handleAuth env) w)) = sess w.
Proof.
  intros w env.
  exact (proj1 (proj2 (handleAuth_prompt_dismissed env w
                         (AuthUrlData.mk "https://accounts.example/authorize")
                         eq_refl eq_refl (or_introl eq_refl)))).
Defined.

(** A user-mode "Continue" whose token exchange is refused stays on
    [auth] and shows the fallback message. *)
Example refused_exchange_shows_error :
  let r := click (handleAuth Sample.refusingOnce) (mount Sample.userSession) in
  step (sess (world r)) = auth /\ error (sess (world r)) = "Auth Failed".
Proof. split; reflexivity. Qed.

(** C5.  [handleFetch] starts by clearing [error], [handleAuth] never
    touches it on its way to [source]: after a refused token exchange has
    left "Auth Failed" on screen, a second "Continue" that succeeds moves
    the session to [source] with that message still in [error]. *)
Theorem handleAuth_keeps_previous_error :
  let w1 := world (click (handleAuth Sample.refusingOnce) (mount Sample.userSession)) in
  let r := click (handleAuth Sample.refusingOnce) w1 in
  error (sess w1) = "Auth Failed" /\
  outcome r = Ok tt /\
  step (sess (world r)) = source /\
  error (sess (world r)) = "Auth Failed" /\
  updates (events r) = [SetStep source].
Proof. repeat split. Qed.

(** The sibling handler does clear it: the first two setter calls of
    [handleFetch] are [setStep('processing')] and [setError('')]. *)
Lemma handleFetch_clears_error_first (env : Env) (w : World) :
  exists evs,
    events (click (handleFetch env) w)
    = SetState (SetStep processing) :: SetState (SetError "") :: evs.
Proof.
  unfold click, handleFetch, bind; cbn.
  destruct (try_catch _ _ _) as [o w2 evs]. cbn. eexists. reflexivity.
Qed.

(* ------------------------------------------------------------------ *)
(** ** The results screen *)

(** C4 as stated fails: on the results screen reached by authenticating,
    generating a mix and saving it, "Start Over" leaves both the mix and
    the saved playlist link in place. *)
Lemma restart_clears_nothing_counterexample :
  let r := click handleRestart Sample.saved in
  step (sess Sample.saved) = results /\
  resultMix (sess (world r)) <> [] /\
  savedUrl (sess (world r)) <> "" /\
  ~ (step (sess (world r)) = source /\
     resultMix (sess (world r)) = [] /\
     savedUrl (sess (world r)) = "" /\
     error (sess (world r)) = "").
Proof.
  cbv zeta. split; [reflexivity |].
  assert (Hmix : resultMix (sess (world (click handleRestart Sample.saved))) <> []).
  { intros H. vm_compute in H. discriminate H. }
  assert (Hurl : savedUrl (sess (world (click handleRestart Sample.saved))) <> "").
  { intros H. vm_compute in H. discriminate H. }
  split; [exact Hmix |]. split; [exact Hurl |].
  intros (_ & H & _). exact (Hmix H).
Qed.

(** "Start Over" is [setStep('source')] and nothing else: the session
    moves to [source] and every other state cell keeps its value. *)
Lemma restart_only_changes_step (w : World) :
  let r := click handleRestart w in
  outcome r = Ok tt /\
  events r = [SetState (SetStep source)] /\
  world r = mkWorld (apply (SetStep source) (sess w)) (calls w) /\
  step (sess (world r)) = source /\
  resultMix (sess (world r)) = resultMix (sess w) /\
  savedUrl (sess (world r)) = savedUrl (sess w) /\
  error (sess (world r)) = error (sess w) /\
  tracks (sess (world r)) = tracks (sess w).
Proof. repeat split. Qed.

Lemma string_app_assoc (a b c : string) :
  ((a ++ b) ++ c = a ++ (b ++ c))%string.
Proof.
  induction a as [| x a IH]; cbn; [reflexivity | now rewrite IH].
Qed.

(** C7.  "Export mix.txt" downloads one file, [mix.txt]; it sends no
    request, calls no setter and leaves the world as it was.  The text of
    the file is empty for an empty mix, is ["<artist> - <name>"] for a mix
    of one track, and for a longer mix is the line of the first track
    followed by one line feed (character 10) and the text of the rest.
    For the mix of A's X followed by B's Y it is the five characters
    [A - X], a line feed, and the five characters [B - Y]. *)
Theorem handleExport_text (w : World) :
  let r := click handleExport w in
  outcome r = Ok tt /\
  events r = [Download "mix.txt" (exportText (resultMix (sess w)))] /\
  requests (events r) = [] /\
  updates (events r) = [] /\
  world r = w /\
  exportText [] = "" /\
  (forall t,
      exportText [t]
      = (EnrichedTrack.artist t ++ " - " ++ EnrichedTrack.name t)%string) /\
  (forall t t' rest,
      exportText (t :: t' :: rest)
      = (EnrichedTrack.artist t ++ " - " ++ EnrichedTrack.name t
         ++ String "010"%char (exportText (t' :: rest)))%string) /\
  (forall a b : EnrichedTrack.t,
      EnrichedTrack.artist a = "A" -> EnrichedTrack.name a = "X" ->
      EnrichedTrack.artist b = "B" -> EnrichedTrack.name b = "Y" ->
      exportText [a; b] = String "A" (String " " (String "-" (String " " (String "X"
                          (String "010" (String "B" (String " " (String "-"
                          (String " " (String "Y" EmptyString))))))))))).
Proof.
  cbv zeta. unfold click, handleExport, emit. cbn [outcome events world].
  do 5 (split; [reflexivity |]). split; [reflexivity |]. split; [reflexivity |].
  split.
  - intros t t' rest. unfold exportText.
    cbn [map join]. unfold newline.
    change (ascii_of_nat 10) with "010"%char.
    rewrite !string_app_assoc. reflexivity.
  - intros a b Ha1 Ha2 Hb1 Hb2. unfold exportText. cbn [map join].
    rewrite Ha1, Ha2, Hb1, Hb2. reflexivity.
Qed.

Lemma handleExport_text_witness :
  exportText [EnrichedTrack.mk "1" "X" "A" "u1" 0 1 120;
              EnrichedTrack.mk "2" "Y" "B" "u2" 11 0 128]
  = String "A" (String " " (String "-" (String " " (String "X"
    (String "010" (String "B" (String " " (String "-"
    (String " " (String "Y" EmptyString)))))))))).
Proof.
  exact (proj2 (proj2 (proj2 (proj2 (proj2 (proj2 (proj2 (proj2
           (handleExport_text (mount initialSession)))))))))
           (EnrichedTrack.mk "1" "X" "A" "u1" 0 1 120)
           (EnrichedTrack.mk "2" "Y" "B" "u2" 11 0 128)
           eq_refl eq_refl eq_refl eq_refl).
Defined.

(** C6.  "Save to Spotify" sends one request with the URIs of the mix.
    Whatever comes back, the step, the mix and every state cell other
    than [savedUrl] keep their values.  [savedUrl] is set, to the URL
    returned, exactly when the reply carries a non-empty [url]; when the
    reply carries none, or the request faults, the session is untouched
    and the failure is shown in an alert. *)
Theorem handleSave_failure_non_fatal (env : Env) (w : World) :
  let uris := map EnrichedTrack.uri (resultMix (sess w)) in
  let r := click (handleSave env) w in
  outcome r = Ok tt /\
  requests (events r) = [PostSave uris] /\
  step (sess (world r)) = step (sess w) /\
  resultMix (sess (world r)) = resultMix (sess w) /\
  apply (SetSavedUrl (savedUrl (sess w))) (sess (world r)) = sess w /\
  match save env (calls w) uris with
  | Ok data =>
      match SaveData.url data with
      | Some (String c rest) =>
          sess (world r) = apply (SetSavedUrl (String c rest)) (sess w) /\
          events r = [Fetch (PostSave uris); SetState (SetSavedUrl (String c rest))]
      | _ =>
          sess (world r) = sess w /\
          events r = [Fetch (PostSave uris);
                      Alert ("Error: " ++ to_text (SaveData.error data))%string]
      end
  | Throw e =>
      sess (world r) = sess w /\
      events r = [Fetch (PostSave uris); Alert e]
  end.
Proof.
  cbv zeta. unfold click, handleSave, try_catch, bind, fetch, alert, emit, setSavedUrl, set.
  cbn [outcome events world sess calls].
  destruct (sess w) as [st am sm iv ml tr pr stt rm su er] eqn:Hs. cbn [resultMix].
  destruct (save env (calls w) (map EnrichedTrack.uri rm)) as [data | e];
    cbn [outcome events world sess calls app].
  - destruct (SaveData.url data) as [[| c rest] |];
      cbn [outcome events world sess calls app]; repeat split.
  - repeat split.
Qed.

(* ------------------------------------------------------------------ *)
(** ** The enrichment loop *)

Section Loop.

Variable env : Env.

(** One turn of the loop. *)
Lemma forLoop_cons total i t rest processed w :
  forLoop env total i (t :: rest) processed w =
  let w1 := mkWorld (apply (SetStatus (processingStatus total i t))
                           (apply (SetProgress (percent i total)) (sess w)))
                    (S (calls w)) in
  let pre := [SetState (SetProgress (percent i total));
              SetState (SetStatus (processingStatus total i t));
              Fetch (PostFeatures t)] in
  match features env (calls w) t with
  | Ok featData =>
      let r := forLoop env total (S i) rest
                       (match featData with
                        | Found track => processed ++ [track]
                        | NotFound => processed
                        end) w1 in
      mkRun (outcome r) (world r) (pre ++ events r)
  | Throw m => mkRun (Throw m) w1 pre
  end.
Proof.
  cbn [forLoop]. unfold bind, setProgress, setStatus, set, fetch.
  cbn [outcome world events sess calls].
  destruct (features env (calls w) t) as [[track |] | m];
    try reflexivity;
    destruct (forLoop _ _ _ _ _ _) as [o w2 evs]; reflexivity.
Qed.

Ltac loop_step IH :=
  rewrite forLoop_cons; cbn [answers firstThrow issued foundTracks];
  cbv zeta;
  match goal with
  | |- context [features env ?n ?t] =>
      destruct (features env n t) as [[? |] | ?];
      cbn [outcome world events sess calls firstThrow issued foundTracks];
      try rewrite IH; cbn [sess calls]
  end.

(** The loop ends with the fault of the first request that faults, and
    otherwise with the tracks of the answers that report [found]
    appended, in order, to what it started with. *)
Lemma forLoop_outcome total raw : forall i processed w,
  outcome (forLoop env total i raw processed w) =
  match firstThrow (answers env (calls w) raw) with
  | Some m => Throw m
  | None => Ok (processed ++ foundTracks (answers env (calls w) raw))
  end.
Proof.
  induction raw as [| t rest IH]; intros i processed w.
  - cbn. now rewrite app_nil_r.
  - loop_step IH.
    + destruct (firstThrow _); [reflexivity |].
      now rewrite <- app_assoc.
    + reflexivity.
    + reflexivity.
Qed.

Lemma forLoop_calls total raw : forall i processed w,
  calls (world (forLoop env total i raw processed w)) =
  calls w + issued (answers env (calls w) raw).
Proof.
  induction raw as [| t rest IH]; intros i processed w.
  - cbn. lia.
  - loop_step IH; lia.
Qed.

Lemma sameButProgress_refl s : sameButProgress s s.
Proof. destruct s; reflexivity. Qed.

Lemma sameButProgress_set s s' p st :
  sameButProgress s (apply (SetStatus st) (apply (SetProgress p) s')) <->
  sameButProgress s s'.
Proof. unfold sameButProgress. destruct s, s'; cbn. tauto. Qed.

(** The loop only ever writes [progress] and [status]. *)
Lemma forLoop_frame total raw : forall i processed w,
  sameButProgress (sess w) (sess (world (forLoop env total i raw processed w))).
Proof.
  induction raw as [| t rest IH]; intros i processed w.
  - cbn. apply sameButProgress_refl.
  - rewrite forLoop_cons. cbv zeta.
    destruct (features env (calls w) t) as [featData | m]; cbn [world sess].
    + match goal with
      | |- sameButProgress _ (sess (world (forLoop _ _ _ _ ?p ?w1))) =>
          specialize (IH (S i) p w1)
      end.
      cbn [sess] in IH.
      unfold sameButProgress in *. 
      destruct (sess (world _)); destruct (sess w); cbn in *. congruence.
    + apply sameButProgress_set, sameButProgress_refl.
Qed.

Lemma forLoop_requests total raw : forall i processed w,
  requests (events (forLoop env total i raw processed w)) =
  map PostFeatures (firstn (issued (answers env (calls w) raw)) raw).
Proof.
  induction raw as [| t rest IH]; intros i processed w.
  - reflexivity.
  - loop_step IH; cbn [app requests firstn map]; try rewrite IH; reflexivity.
Qed.

Lemma forLoop_progressValues total raw : forall i processed w,
  progressValues (events (forLoop env total i raw processed w)) =
  map (fun j => percent j total) (seq i (issued (answers env (calls w) raw))).
Proof.
  induction raw as [| t rest IH]; intros i processed w.
  - reflexivity.
  - loop_step IH; cbn [app progressValues seq map]; try rewrite IH; reflexivity.
Qed.

Lemma forLoop_progressAtCalls total raw : forall i processed w current,
  progressAtCalls current (events (forLoop env total i raw processed w)) =
  map (fun j => Some (percent j total))
      (seq i (issued (answers env (calls w) raw))).
Proof.
  induction raw as [| t rest IH]; intros i processed w current.
  - reflexivity.
  - loop_step IH; cbn [app progressAtCalls seq map]; try rewrite IH; reflexivity.
Qed.

End Loop.

(* ------------------------------------------------------------------ *)
(** ** Percentages *)

Section Rounding.

Local Open Scope Q_scope.

Lemma pow2_pos e : 0 < pow2 e.
Proof. apply Qpower_0_lt. reflexivity. Qed.

Lemma pow2_plus a b : pow2 (a + b) == pow2 a * pow2 b.
Proof. apply Qpower_plus. discriminate. Qed.

Lemma pow2_le a b : (a <= b)%Z -> pow2 a <= pow2 b.
Proof. intros H. apply Qpower_le_compat_l; [exact H | discriminate]. Qed.

Lemma pow2_lt_inv a b : pow2 a < pow2 b -> (a < b)%Z.
Proof. intros H. apply (Qpower_lt_compat_l_inv 2); [exact H | reflexivity]. Qed.

Lemma pow2_Z n : (0 <= n)%Z -> pow2 n == inject_Z (2 ^ n).
Proof. intros H. unfold pow2. now rewrite (Zpower_Qpower 2 n H). Qed.

Lemma rne_cases y :
  (rne y = Qfloor y /\ y - inject_Z (Qfloor y) <= 1 # 2) \/
  (rne y = (Qfloor y + 1)%Z /\ 1 # 2 <= y - inject_Z (Qfloor y)).
Proof.
  unfold rne.
  destruct (Qcompare_spec (y - inject_Z (Qfloor y)) (1 # 2)) as [Hc | Hc | Hc].
  - destruct (Z.even (Qfloor y)); [left | right];
      (split; [reflexivity | rewrite Hc; apply Qle_refl]).
  - left. split; [reflexivity | now apply Qlt_le_weak].
  - right. split; [reflexivity | now apply Qlt_le_weak].
Qed.

Lemma rne_near y : Qabs (inject_Z (rne y) - y) <= 1 # 2.
Proof.
  pose proof (Qfloor_le y) as Hlo. pose proof (Qlt_floor y) as Hhi.
  rewrite inject_Z_plus in Hhi. change (inject_Z 1) with 1 in Hhi.
  apply Qabs_Qle_condition.
  destruct (rne_cases y) as [(-> & H) | (-> & H)].
  - split; lra.
  - rewrite inject_Z_plus. change (inject_Z 1) with 1. split; lra.
Qed.

Lemma rne_mono y y' : y <= y' -> (rne y <= rne y')%Z.
Proof.
  intros Hle.
  pose proof (Qfloor_resp_le y y' Hle) as Hfl.
  destruct (Z.eq_dec (Qfloor y) (Qfloor y')) as [Heq | Hne].
  - unfold rne. rewrite <- Heq.
    destruct (Qcompare_spec (y - inject_Z (Qfloor y)) (1 # 2)) as [Hc | Hc | Hc];
      destruct (Qcompare_spec (y' - inject_Z (Qfloor y)) (1 # 2)) as [Hc' | Hc' | Hc'];
      try (destruct (Z.even (Qfloor y))); try lia; exfalso; lra.
  - destruct (rne_cases y) as [(-> & _) | (-> & _)];
      destruct (rne_cases y') as [(-> & _) | (-> & _)]; lia.
Qed.

Lemma rne_inject z : rne (inject_Z z) = z.
Proof.
  unfold rne. rewrite Qfloor_Z.
  destruct (Qcompare_spec (inject_Z z - inject_Z z) (1 # 2)) as [Hc | Hc | Hc];
    try reflexivity; exfalso; lra.
Qed.

Lemma ilog_spec x : 0 < x -> pow2 (ilog x) <= x /\ x < pow2 (ilog x + 1).
Proof.
  intros Hx. destruct x as [a b]. unfold ilog. cbn [Qnum Qden].
  assert (Ha : (0 < a)%Z).
  { unfold Qlt in Hx. cbn in Hx. lia. }
  set (la := Z.log2 a). set (lb := Z.log2 (Zpos b)).
  destruct (Z.log2_spec a Ha) as (Ha1 & Ha2). fold la in Ha1, Ha2.
  destruct (Z.log2_spec (Zpos b) eq_refl) as (Hb1 & Hb2). fold lb in Hb1, Hb2.
  assert (Hla : (0 <= la)%Z) by apply Z.log2_nonneg.
  assert (Hlb : (0 <= lb)%Z) by apply Z.log2_nonneg.
  assert (Hxb : (a # b) * inject_Z (Zpos b) == inject_Z a).
  { unfold Qeq, Qmult, inject_Z. cbn [Qnum Qden]. rewrite Pos.mul_1_r. lia. }
  assert (Hbpos : 0 < inject_Z (Zpos b)) by reflexivity.
  (* bounds in Q *)
  assert (HA1 : pow2 la <= inject_Z a).
  { rewrite (pow2_Z la Hla). rewrite <- Zle_Qle. exact Ha1. }
  assert (HA2 : inject_Z a < pow2 (la + 1)).
  { rewrite (pow2_Z (la + 1)) by lia. rewrite <- Zlt_Qlt.
    replace (la + 1)%Z with (Z.succ la) by lia. exact Ha2. }
  assert (HB1 : pow2 lb <= inject_Z (Zpos b)).
  { rewrite (pow2_Z lb Hlb). rewrite <- Zle_Qle. exact Hb1. }
  assert (HB2 : inject_Z (Zpos b) < pow2 (lb + 1)).
  { rewrite (pow2_Z (lb + 1)) by lia. rewrite <- Zlt_Qlt.
    replace (lb + 1)%Z with (Z.succ lb) by lia. exact Hb2. }
  assert (Hup : (a # b) < pow2 (la - lb + 1)).
  { apply (Qmult_lt_r _ _ (pow2 lb) (pow2_pos lb)).
    rewrite <- pow2_plus. replace (la - lb + 1 + lb)%Z with (la + 1)%Z by lia.
    apply Qle_lt_trans with (inject_Z a); [| exact HA2].
    rewrite <- Hxb. apply Qmult_le_l; [exact Hx | exact HB1]. }
  assert (Hlow : pow2 (la - lb - 1) <= (a # b)).
  { apply (Qmult_le_r _ _ (inject_Z (Zpos b)) Hbpos). rewrite Hxb.
    apply Qle_trans with (pow2 la); [| exact HA1].
    replace la with ((la - lb - 1) + (lb + 1))%Z at 2 by lia.
    rewrite pow2_plus. apply Qmult_le_l; [apply pow2_pos |].
    now apply Qlt_le_weak. }
  destruct (Qle_bool (pow2 (la - lb)) (a # b)) eqn:Hb.
  - apply Qle_bool_iff in Hb. split; assumption.
  - assert (Hnb : ~ pow2 (la - lb) <= a # b).
    { intros H. apply Qle_bool_iff in H. congruence. }
    apply Qnot_le_lt in Hnb. split; [exact Hlow |].
    replace (la - lb - 1 + 1)%Z with (la - lb)%Z by lia. exact Hnb.
Qed.

Lemma scaled_bounds x :
  0 < x ->
  pow2 52 <= x / pow2 (ilog x - 52) /\ x / pow2 (ilog x - 52) < pow2 53.
Proof.
  intros Hx. destruct (ilog_spec x Hx) as (Hlo & Hhi).
  pose proof (pow2_pos (ilog x - 52)) as He. split.
  - apply Qle_shift_div_l; [exact He |].
    rewrite <- pow2_plus. replace (52 + (ilog x - 52))%Z with (ilog x) by lia.
    exact Hlo.
  - apply Qlt_shift_div_r; [exact He |].
    rewrite <- pow2_plus. replace (53 + (ilog x - 52))%Z with (ilog x + 1)%Z by lia.
    exact Hhi.
Qed.

Lemma scaled_back x e : x / pow2 e * pow2 e == x.
Proof.
  unfold Qdiv. rewrite <- Qmult_assoc, (Qmult_comm (/ pow2 e)).
  rewrite Qmult_inv_r; [apply Qmult_1_r |].
  pose proof (pow2_pos e). lra.
Qed.

Lemma nearest_mantissa x :
  0 < x ->
  (2 ^ 52 <= rne (x / pow2 (ilog x - 52)) <= 2 ^ 53)%Z.
Proof.
  intros Hx. destruct (scaled_bounds x Hx) as (Hlo & Hhi).
  rewrite (pow2_Z 52) in Hlo by lia. rewrite (pow2_Z 53) in Hhi by lia.
  split.
  - rewrite <- (rne_inject (2 ^ 52)). now apply rne_mono.
  - rewrite <- (rne_inject (2 ^ 53)). apply rne_mono. now apply Qlt_le_weak.
Qed.

Lemma nearest_bounds x :
  0 < x -> pow2 (ilog x) <= nearest x /\ nearest x <= pow2 (ilog x + 1).
Proof.
  intros Hx. destruct (nearest_mantissa x Hx) as (Hlo & Hhi).
  pose proof (pow2_pos (ilog x - 52)) as He. unfold nearest. split.
  - replace (ilog x) with (52 + (ilog x - 52))%Z at 1 by lia.
    rewrite pow2_plus, (pow2_Z 52) by lia.
    apply Qmult_le_compat_r; [| now apply Qlt_le_weak].
    rewrite <- Zle_Qle. exact Hlo.
  - replace (ilog x + 1)%Z with (53 + (ilog x - 52))%Z by lia.
    rewrite pow2_plus, (pow2_Z 53) by lia.
    apply Qmult_le_compat_r; [| now apply Qlt_le_weak].
    rewrite <- Zle_Qle. exact Hhi.
Qed.

Lemma nearest_mono x x' : 0 < x -> x <= x' -> nearest x <= nearest x'.
Proof.
  intros Hx Hle.
  assert (Hx' : 0 < x') by (eapply Qlt_le_trans; eassumption).
  destruct (ilog_spec x Hx) as (Hlo & Hhi).
  destruct (ilog_spec x' Hx') as (Hlo' & Hhi').
  assert (Hlog : (ilog x <= ilog x')%Z).
  { assert (H : pow2 (ilog x) < pow2 (ilog x' + 1)).
    { eapply Qle_lt_trans; [exact Hlo |]. eapply Qle_lt_trans; eassumption. }
    apply pow2_lt_inv in H. lia. }
  destruct (Z.eq_dec (ilog x) (ilog x')) as [Heq | Hne].
  - unfold nearest. rewrite <- Heq.
    pose proof (pow2_pos (ilog x - 52)) as He.
    apply Qmult_le_compat_r; [| now apply Qlt_le_weak].
    rewrite <- Zle_Qle. apply rne_mono.
    unfold Qdiv. apply Qmult_le_compat_r; [exact Hle |].
    apply Qinv_le_0_compat. now apply Qlt_le_weak.
  - apply Qle_trans with (pow2 (ilog x + 1)); [apply (nearest_bounds x Hx) |].
    apply Qle_trans with (pow2 (ilog x')); [apply pow2_le; lia |].
    apply (nearest_bounds x' Hx').
Qed.

Lemma nearest_error x : 0 < x -> Qabs (nearest x - x) <= x * (1 # 2 ^ 53).
Proof.
  intros Hx. set (e := (ilog x - 52)%Z).
  pose proof (pow2_pos e) as He.
  destruct (ilog_spec x Hx) as (Hlo & _).
  assert (Heq : nearest x - x == (inject_Z (rne (x / pow2 e)) - x / pow2 e) * pow2 e).
  { unfold nearest. fold e. rewrite <- (scaled_back x e) at 2. ring. }
  rewrite Heq, Qabs_Qmult, (Qabs_pos (pow2 e)) by now apply Qlt_le_weak.
  apply Qle_trans with ((1 # 2) * pow2 e).
  - apply Qmult_le_compat_r; [apply rne_near | now apply Qlt_le_weak].
  - apply Qle_trans with (pow2 (ilog x) * (1 # 2 ^ 53)).
    + replace (ilog x) with (e + 52)%Z by (unfold e; lia).
      rewrite pow2_plus.
      assert (H52 : pow2 52 * (1 # 2 ^ 53) == 1 # 2) by reflexivity.
      rewrite <- Qmult_assoc, H52. rewrite Qmult_comm. apply Qle_refl.
    + apply Qmult_le_compat_r; [exact Hlo | discriminate].
Qed.

Lemma double_pos x : 0 < x -> double x = nearest x.
Proof.
  intros Hx. unfold double. destruct x as [[| p | p] d]; try reflexivity;
    unfold Qlt in Hx; cbn in Hx; lia.
Qed.

Lemma double_zero x : x == 0 -> double x = 0.
Proof.
  intros Hx. unfold double. destruct x as [[| p | p] d]; try reflexivity;
    unfold Qeq in Hx; cbn in Hx; lia.
Qed.

Lemma Qnonneg_cases x : 0 <= x -> x == 0 \/ 0 < x.
Proof.
  intros Hx. destruct (Qlt_le_dec 0 x) as [H | H]; [now right | left].
  now apply Qle_antisym.
Qed.

Lemma double_nonneg x : 0 <= x -> 0 <= double x.
Proof.
  intros Hx. destruct (Qnonneg_cases x Hx) as [H0 | Hpos].
  - rewrite (double_zero x H0). apply Qle_refl.
  - rewrite (double_pos x Hpos).
    eapply Qle_trans; [| apply (nearest_bounds x Hpos)].
    apply Qlt_le_weak, pow2_pos.
Qed.

Lemma double_le x y : 0 <= x -> x <= y -> double x <= double y.
Proof.
  intros Hx Hle. destruct (Qnonneg_cases x Hx) as [H0 | Hpos].
  - rewrite (double_zero x H0). apply double_nonneg.
    eapply Qle_trans; eassumption.
  - rewrite (double_pos x Hpos), (double_pos y).
    + now apply nearest_mono.
    + eapply Qlt_le_trans; eassumption.
Qed.

Lemma double_error x : 0 <= x -> Qabs (double x - x) <= x * (1 # 2 ^ 53).
Proof.
  intros Hx. destruct (Qnonneg_cases x Hx) as [H0 | Hpos].
  - rewrite (double_zero x H0), H0. discriminate.
  - rewrite (double_pos x Hpos). now apply nearest_error.
Qed.

Lemma ratio_nonneg (i total : nat) :
  0 <= inject_Z (Z.of_nat i) / inject_Z (Z.of_nat total).
Proof.
  unfold Qdiv. apply Qmult_le_0_compat.
  - change 0 with (inject_Z 0). rewrite <- Zle_Qle. lia.
  - apply Qinv_le_0_compat. change 0 with (inject_Z 0). rewrite <- Zle_Qle. lia.
Qed.

Lemma percent_nonneg (total i : nat) : 0 <= percent i total.
Proof.
  unfold percent. apply double_nonneg.
  apply Qmult_le_0_compat; [| discriminate].
  apply double_nonneg, ratio_nonneg.
Qed.

Lemma percent_le (total i j : nat) :
  (i <= j)%nat -> percent i total <= percent j total.
Proof.
  intros Hij. unfold percent.
  assert (Hr : inject_Z (Z.of_nat i) / inject_Z (Z.of_nat total)
               <= inject_Z (Z.of_nat j) / inject_Z (Z.of_nat total)).
  { unfold Qdiv. apply Qmult_le_compat_r.
    - rewrite <- Zle_Qle. lia.
    - apply Qinv_le_0_compat. change 0 with (inject_Z 0). rewrite <- Zle_Qle. lia. }
  apply double_le.
  - apply Qmult_le_0_compat; [| discriminate]. apply double_nonneg, ratio_nonneg.
  - apply Qmult_le_compat_r; [| discriminate].
    apply double_le; [apply ratio_nonneg | exact Hr].
Qed.

Lemma percent_le_100 (total i : nat) :
  (i <= total)%nat -> percent i total <= 100.
Proof.
  intros Hi. unfold percent.
  assert (Hr : inject_Z (Z.of_nat i) / inject_Z (Z.of_nat total) <= 1).
  { destruct total as [| n].
    - replace i with 0%nat by lia. discriminate.
    - apply Qle_shift_div_r; [reflexivity |].
      rewrite Qmult_1_l, <- Zle_Qle. lia. }
  assert (H1 : double 1 <= 1) by (vm_compute; discriminate).
  assert (H100 : double 100 <= 100) by (vm_compute; discriminate).
  apply Qle_trans with (double 100); [| exact H100].
  apply double_le.
  - apply Qmult_le_0_compat; [| discriminate]. apply double_nonneg, ratio_nonneg.
  - apply Qle_trans with (1 * 100); [| discriminate].
    apply Qmult_le_compat_r; [| discriminate].
    apply Qle_trans with (double 1); [| exact H1].
    apply double_le; [apply ratio_nonneg | exact Hr].
Qed.

(** The value emitted is the exact percentage up to the two roundings. *)
Lemma percent_error (total i : nat) :
  let exact := inject_Z (Z.of_nat i) / inject_Z (Z.of_nat total) * 100 in
  Qabs (percent i total - exact) <= exact * (1 # 2 ^ 51).
Proof.
  cbv zeta. unfold percent.
  set (x := inject_Z (Z.of_nat i) / inject_Z (Z.of_nat total)).
  assert (Hx : 0 <= x) by apply ratio_nonneg.
  pose proof (double_nonneg x Hx) as Ha.
  pose proof (double_error x Hx) as Hea.
  set (a := double x) in *.
  assert (Hp : 0 <= a * 100) by (apply Qmult_le_0_compat; [exact Ha | discriminate]).
  pose proof (double_error (a * 100) Hp) as Hev.
  set (v := double (a * 100)) in *.
  apply Qabs_Qle_condition in Hea. apply Qabs_Qle_condition in Hev.
  apply Qabs_Qle_condition.
  assert (Hu : (1 # 2 ^ 53) == (1 # 9007199254740992)) by reflexivity.
  assert (Hw : (1 # 2 ^ 51) == (1 # 2251799813685248)) by reflexivity.
  rewrite Hu in Hea, Hev. rewrite Hw.
  split; lra.
Qed.

End Rounding.

(** On every playlist of up to 100 tracks, and for every index into it,
    [percent] is the number the machine's binary64 division and
    multiplication return. *)
Example percent_is_binary64 :
  forallb (fun total => forallb (fun i => agrees i total) (seq 0 total))
          (seq 1 100) = true.
Proof. vm_compute. reflexivity. Qed.

(** Line 72 as the engine evaluates it: 7 of 25 is 28.000000000000004,
    1 of 3 is 33.33333333333333 and 2 of 3 is 66.66666666666666. *)
Example percent_values :
  Qred (percent 7 25) = (7881299347898369 # 281474976710656)%Q /\
  Qred (percent 1 3) = (2345624805922133 # 70368744177664)%Q /\
  Qred (percent 2 3) = (2345624805922133 # 35184372088832)%Q /\
  Qred (percent 1 2) = 50%Q /\ Qred (percent 0 5) = 0%Q.
Proof. vm_compute. repeat split. Qed.

Lemma percent_sorted (total : nat) : forall k i,
  i + k <= total ->
  StronglySorted Qle (map (fun j => percent j total) (seq i k) ++ [100%Q]).
Proof.
  induction k as [| k IH]; intros i Hik; cbn.
  - repeat constructor.
  - constructor; [apply IH; lia |].
    apply Forall_app. split.
    + apply Forall_forall. intros q Hq. apply in_map_iff in Hq.
      destruct Hq as (j & <- & Hj). apply in_seq in Hj.
      apply percent_le. lia.
    + constructor; [| constructor]. apply percent_le_100. lia.
Qed.

Lemma StronglySorted_app_l {A} (R : A -> A -> Prop) (l1 l2 : list A) :
  StronglySorted R (l1 ++ l2) -> StronglySorted R l1.
Proof.
  induction l1 as [| x l1 IH]; cbn; intros H; [constructor |].
  inversion H as [| ? ? Hs Hf]; subst. constructor; [auto |].
  apply Forall_app in Hf. tauto.
Qed.

Lemma issued_le {A} (l : list (Outcome A)) : issued l <= List.length l.
Proof.
  induction l as [| [a | m] l IH]; cbn; lia.
Qed.

Lemma issued_all {A} (l : list (Outcome A)) :
  firstThrow l = None -> issued l = List.length l.
Proof.
  induction l as [| [a | m] l IH]; cbn; intros H; [reflexivity | | discriminate].
  now rewrite IH.
Qed.

Lemma answers_length env n raw : List.length (answers env n raw) = List.length raw.
Proof.
  revert n. induction raw as [| t raw IH]; intros n; cbn; [reflexivity |].
  now rewrite IH.
Qed.

Lemma foundTracks_length l : List.length (foundTracks l) <= List.length l.
Proof.
  induction l as [| [[track |] | m] l IH]; cbn; lia.
Qed.

(* ------------------------------------------------------------------ *)
(** ** The processing stage, run by run *)

Section Processing.

Variable env : Env.
Variable w : World.

(** The source request faults. *)
Lemma handleFetch_source_fault m :
  sourceAnswer env (sess w) (calls w) = Throw m ->
  click (handleFetch env) w =
  mkRun (Ok tt) (mkWorld (recovered m (opened (sess w))) (S (calls w)))
        (opening ++ Fetch (sourceRequest (sess w)) :: caught m).
Proof.
  intros Hsrc. unfold click, handleFetch, fetchBody, try_catch, bind, fetch.
  cbn [outcome world events sess calls setStep setError setStatus set app].
  rewrite Hsrc. reflexivity.
Qed.

(** The source answers with an [error] field. *)
Lemma handleFetch_source_error data e :
  sourceAnswer env (sess w) (calls w) = Ok data ->
  SourceData.error data = Some e -> truthy e = true ->
  click (handleFetch env) w =
  mkRun (Ok tt) (mkWorld (recovered e (opened (sess w))) (S (calls w)))
        (opening ++ Fetch (sourceRequest (sess w)) :: caught e).
Proof.
  intros Hsrc He Ht. unfold click, handleFetch, fetchBody, try_catch, bind, fetch.
  cbn [outcome world events sess calls setStep setError setStatus set app].
  rewrite Hsrc. cbn [outcome world events]. rewrite He.
  destruct e as [| c rest]; [discriminate Ht |]. reflexivity.
Qed.

(** The source answers with its tracks: the loop runs, and the solver is
    called if the loop comes to its end. *)
Lemma handleFetch_enrich data :
  sourceAnswer env (sess w) (calls w) = Ok data ->
  present (SourceData.error data) = false ->
  let L := enrich env (SourceData.tracks data) (mkWorld (opened (sess w)) (S (calls w))) in
  let before := opening ++ Fetch (sourceRequest (sess w)) :: events L in
  click (handleFetch env) w =
  match outcome L with
  | Throw m =>
      mkRun (Ok tt) (mkWorld (recovered m (sess (world L))) (calls (world L)))
            (before ++ caught m)
  | Ok processed =>
      let s2 := handedOver processed (sess (world L)) in
      let n2 := S (calls (world L)) in
      let before2 := before ++ solving processed (mixLength (sess w)) in
      match solve env (calls (world L)) processed (mixLength (sess w)) with
      | Ok (Solved mix) =>
          mkRun (Ok tt)
                (mkWorld (apply (SetStep results) (apply (SetResultMix mix) s2)) n2)
                (before2 ++ [SetState (SetResultMix mix); SetState (SetStep results)])
      | Ok (Unsolved message) =>
          mkRun (Ok tt)
                (mkWorld (recovered (or_else message "Solver failed") s2) n2)
                (before2 ++ caught (or_else message "Solver failed"))
      | Throw m =>
          mkRun (Ok tt) (mkWorld (recovered m s2) n2) (before2 ++ caught m)
      end
  end.
Proof.
  intros Hsrc Herr. cbv zeta.
  unfold click, handleFetch, fetchBody, try_catch, bind, fetch.
  cbn [outcome world events sess calls setStep setError setStatus set app].
  rewrite Hsrc. cbn [outcome world events].
  destruct (SourceData.error data) as [[| c rest] |] eqn:He;
    try discriminate Herr;
    change (mkWorld
              (apply (SetStatus "Fetching tracks...")
                     (apply (SetError "") (apply (SetStep processing) (sess w)))) (S (calls w)))
      with (mkWorld (opened (sess w)) (S (calls w)));
    destruct (enrich env (SourceData.tracks data) (mkWorld (opened (sess w)) (S (calls w))))
      as [[processed | m] wL evL];
    cbn [outcome world events sess calls setTracks setProgress setResultMix
         setStep setError setStatus set app];
    try reflexivity;
    destruct (solve env (calls wL) processed (mixLength (sess w))) as [[mix | message] | m];
    cbn [outcome world events sess calls setTracks setProgress setResultMix
         setStep setError setStatus set app];
    unfold opening, solving, caught, recovered, handedOver;
    cbn [app]; rewrite <- ?app_assoc; reflexivity.
Qed.

End Processing.

(* ------------------------------------------------------------------ *)
(** ** The enrichment pipeline *)

Lemma Subseq_In {A} (l1 l2 : list A) (x : A) :
  Subseq l1 l2 -> In x l1 -> In x l2.
Proof.
  induction 1 as [| y l1 l2 _ IH | y l1 l2 _ IH]; cbn; intros Hin; tauto.
Qed.

Lemma foundTracks_Subseq (env : Env) (raw : list RawTrack.t) :
  (forall n t track,
      features env n t = Ok (Found track) ->
      EnrichedTrack.id track = RawTrack.id t) ->
  forall n,
    Subseq (map EnrichedTrack.id (foundTracks (answers env n raw)))
           (map RawTrack.id raw).
Proof.
  intros Hecho. induction raw as [| t raw IH]; intros n; cbn.
  - constructor.
  - destruct (features env n t) as [[track |] | m] eqn:Hf; cbn.
    + rewrite (Hecho _ _ _ Hf). constructor. apply IH.
    + constructor. apply IH.
    + constructor. apply IH.
Qed.

Lemma firstThrow_None {A} (l : list (Outcome A)) :
  (forall m, ~ In (Throw m) l) -> firstThrow l = None.
Proof.
  induction l as [| [a | m] l IH]; cbn; intros H.
  - reflexivity.
  - apply IH. intros m Hin. apply (H m). now right.
  - exfalso. apply (H m). now left.
Qed.

(** C1 as stated fails: the loop stores the track of the reply, not the
    track it asked about.  When the feature service files its records
    under identifiers of its own, both tracks of the playlist come out of
    the pipeline under an identifier that no input track has. *)
Lemma enrich_identifier_counterexample :
  Sample.rawTracks <> [] /\
  exists out,
    outcome (enrich Sample.relabelling Sample.rawTracks (mount initialSession)) = Ok out /\
    ~ (forall track, In track out ->
         exists t, In t Sample.rawTracks /\ EnrichedTrack.id track = RawTrack.id t).
Proof.
  split; [discriminate |].
  eexists. split; [reflexivity |].
  intros H. destruct (H _ (or_introl eq_refl)) as (t & Hin & Hid).
  cbn in Hin, Hid. destruct Hin as [<- | [<- | []]]; discriminate Hid.
Qed.

Lemma foundTracks_kept (env : Env) (raw : list RawTrack.t) : forall n,
  exists kept,
    Subseq kept raw /\
    Forall2 (fun t track => exists k, features env k t = Ok (Found track))
            kept (foundTracks (answers env n raw)).
Proof.
  induction raw as [| t raw IH]; intros n; cbn.
  - exists []. split; constructor.
  - destruct (IH (S n)) as (kept & Hsub & Hall).
    destruct (features env n t) as [[track |] | m] eqn:Hf; cbn.
    + exists (t :: kept). split; [now constructor |].
      constructor; [eauto | exact Hall].
    + exists kept. split; [now constructor | exact Hall].
    + exists kept. split; [now constructor | exact Hall].
Qed.

(** C1, amended.  Whatever the feature service answers, the pipeline
    faults only if a lookup faults, a lookup reporting not-found raises
    nothing, and when the pipeline completes its output is the tracks of
    the found replies in input order: the replies to a subsequence of the
    input, one reply per track kept, so it is no longer than the input.
    Provided, in addition, that the service answers every found lookup
    with a track that carries the identifier of the track it was asked
    about, the identifiers of the output are those of the input with some
    left out, and each matches the identifier of some input track. *)
Theorem enrich_keeps_found_tracks_in_order
        (env : Env) (raw : list RawTrack.t) (w : World) :
  let ans := answers env (calls w) raw in
  outcome (enrich env raw w) =
    match firstThrow ans with
    | Some m => Throw m
    | None => Ok (foundTracks ans)
    end /\
  ((forall m, ~ In (Throw m) ans) ->
   exists out, outcome (enrich env raw w) = Ok out) /\
  (forall out,
      outcome (enrich env raw w) = Ok out ->
      out = foundTracks ans /\
      List.length out <= List.length raw /\
      (exists kept,
          Subseq kept raw /\
          Forall2 (fun t track => exists k, features env k t = Ok (Found track))
                  kept out) /\
      ((forall n t track,
           features env n t = Ok (Found track) ->
           EnrichedTrack.id track = RawTrack.id t) ->
       Subseq (map EnrichedTrack.id out) (map RawTrack.id raw) /\
       (forall track, In track out ->
          exists t, In t raw /\ EnrichedTrack.id track = RawTrack.id t))).
Proof.
  intros ans.
  assert (Hout : outcome (enrich env raw w) =
                 match firstThrow ans with
                 | Some m => Throw m
                 | None => Ok (foundTracks ans)
                 end).
  { unfold enrich. now rewrite forLoop_outcome. }
  split; [exact Hout |]. split.
  - intros Hno. rewrite Hout, (firstThrow_None ans Hno). eauto.
  - intros out Hok. rewrite Hout in Hok.
    destruct (firstThrow ans); [discriminate Hok |].
    injection Hok as <-.
    split; [reflexivity |]. split.
    { rewrite <- (answers_length env (calls w) raw). apply foundTracks_length. }
    split; [apply foundTracks_kept |].
    intros Hecho.
    assert (Hsub := foundTracks_Subseq env raw Hecho (calls w)). fold ans in Hsub.
    split; [exact Hsub |].
    intros track Hin.
    assert (Hid : In (EnrichedTrack.id track) (map RawTrack.id raw)).
    { eapply Subseq_In; [exact Hsub |]. now apply in_map. }
    apply in_map_iff in Hid. destruct Hid as (t & Heq & Ht). eauto.
Qed.

Lemma enrich_keeps_found_tracks_in_order_witness :
  outcome (enrich Sample.selective Sample.rawTracks (mount initialSession))
    = Ok [Sample.enriched (Sample.raw "t2" "Da Funk" "Daft Punk")] /\
  Subseq (map EnrichedTrack.id
              [Sample.enriched (Sample.raw "t2" "Da Funk" "Daft Punk")])
         (map RawTrack.id Sample.rawTracks).
Proof.
  destruct (enrich_keeps_found_tracks_in_order
              Sample.selective Sample.rawTracks (mount initialSession))
    as (Hout & _ & Hall).
  assert (Hok : outcome (enrich Sample.selective Sample.rawTracks
                                (mount initialSession))
                = Ok [Sample.enriched (Sample.raw "t2" "Da Funk" "Daft Punk")])
    by exact (eq_trans Hout eq_refl).
  split; [exact Hok |].
  destruct (Hall _ Hok) as (_ & _ & _ & Hid).
  apply Hid. intros n t track. cbn.
  destruct (RawTrack.id t =? "t1")%string; [discriminate |].
  intros H. injection H as <-. reflexivity.
Defined.

(** At the relabelling service, where no identifier is echoed, the
    pipeline still returns one track per input track, in order. *)
Example relabelling_keeps_length_and_order :
  exists out,
    outcome (enrich Sample.relabelling Sample.rawTracks (mount initialSession)) = Ok out /\
    List.length out = 2 /\
    map EnrichedTrack.name out = map RawTrack.name Sample.rawTracks.
Proof. eexists. repeat split. Qed.

(* ------------------------------------------------------------------ *)
(** ** The processing stage *)

Lemma requests_app (a b : list Event) :
  requests (a ++ b) = requests a ++ requests b.
Proof.
  induction a as [| [] a IH]; cbn; try rewrite IH; reflexivity.
Qed.

Lemma progressValues_app (a b : list Event) :
  progressValues (a ++ b) = progressValues a ++ progressValues b.
Proof.
  induction a as [| [[] | | | | |] a IH]; cbn; try rewrite IH; reflexivity.
Qed.

Lemma progressAtCalls_app_quiet (a b : list Event) :
  (forall current, progressAtCalls current b = []) ->
  forall current, progressAtCalls current (a ++ b) = progressAtCalls current a.
Proof.
  intros Hb. induction a as [| e a IH]; intros current; cbn.
  - apply Hb.
  - destruct e as [[] | [] | | | |]; cbn; try rewrite IH; reflexivity.
Qed.

Lemma in_requests (r : Request) (evs : list Event) :
  In r (requests evs) <-> In (Fetch r) evs.
Proof.
  induction evs as [| e evs IH]; cbn; [tauto |].
  destruct e; cbn; rewrite IH; split; intros H;
    try (destruct H as [H | H]; [discriminate H || (injection H as ->) |]);
    auto; try (destruct H as [-> | H]; auto).
Qed.

(** C9.  When the source has answered and the loop comes to its end
    without a single track found, the handler stores the empty list and
    then sends the solve request with that empty list and the target
    length: it is the request that follows the per-track requests. *)
Theorem handleFetch_solves_empty_selection
        (env : Env) (w : World) (data : SourceData.t) :
  sourceAnswer env (sess w) (calls w) = Ok data ->
  present (SourceData.error data) = false ->
  let raw := SourceData.tracks data in
  let ans := answers env (S (calls w)) raw in
  firstThrow ans = None ->
  foundTracks ans = [] ->
  let r := click (handleFetch env) w in
  requests (events r) =
    sourceRequest (sess w) :: map PostFeatures raw
    ++ [PostSolve [] (mixLength (sess w))] /\
  In (Fetch (PostSolve [] (mixLength (sess w)))) (events r) /\
  In (SetState (SetTracks [])) (events r).
Proof.
  intros Hsrc Herr raw ans Hno Hempty r.
  assert (Hrun := handleFetch_enrich env w data Hsrc Herr). cbv zeta in Hrun.
  fold raw r in Hrun.
  set (L := enrich env raw (mkWorld (opened (sess w)) (S (calls w)))) in *.
  assert (HoutL : outcome L = Ok []).
  { unfold L, enrich. rewrite forLoop_outcome. cbn [calls].
    fold ans. now rewrite Hno, Hempty. }
  assert (HreqL : requests (events L) = map PostFeatures raw).
  { unfold L, enrich. rewrite forLoop_requests. cbn [calls]. fold ans.
    rewrite (issued_all ans Hno). unfold ans. rewrite answers_length.
    now rewrite firstn_all. }
  rewrite HoutL in Hrun.
  assert (Hreq : exists tail,
             events r = (opening ++ Fetch (sourceRequest (sess w)) :: events L)
                        ++ solving [] (mixLength (sess w)) ++ tail /\
             requests tail = []).
  { destruct (solve env (calls (world L)) [] (mixLength (sess w)))
      as [[mix | message] | m]; rewrite Hrun; cbn [events];
      rewrite <- app_assoc; eexists; (split; [reflexivity |]); reflexivity. }
  destruct Hreq as (tail & Hev & Htail).
  assert (Hrequests : requests (events r) =
            sourceRequest (sess w) :: map PostFeatures raw
            ++ [PostSolve [] (mixLength (sess w))]).
  { rewrite Hev, !requests_app, Htail, app_nil_r. cbn [opening app requests].
    rewrite HreqL. reflexivity. }
  split; [exact Hrequests |]. split.
  - apply in_requests. rewrite Hrequests. right. apply in_or_app. right. now left.
  - rewrite Hev. apply in_or_app. right. now left.
Qed.

Lemma handleFetch_solves_empty_selection_witness :
  In (Fetch (PostSolve [] (LengthNumber 45)))
     (events (click (handleFetch Sample.knowingNothing) Sample.authenticated)).
Proof.
  exact (proj1 (proj2 (handleFetch_solves_empty_selection
                         Sample.knowingNothing Sample.authenticated
                         (SourceData.mk Sample.rawTracks None)
                         eq_refl eq_refl eq_refl eq_refl))).
Defined.

Lemma enrich_run (env : Env) (raw : list RawTrack.t) (w : World) :
  let L := enrich env raw w in
  let ans := answers env (calls w) raw in
  outcome L = match firstThrow ans with
              | Some m => Throw m
              | None => Ok (foundTracks ans)
              end /\
  calls (world L) = calls w + issued ans /\
  sameButProgress (sess w) (sess (world L)).
Proof.
  cbv zeta. unfold enrich.
  rewrite forLoop_outcome, forLoop_calls. repeat split.
  apply forLoop_frame.
Qed.




(** C2.  In a run whose source request returned [N] tracks: when the
    [i]-th per-track request (counting from 0) is sent, the value last
    passed to [setProgress] is [(i / N) * 100] as the engine computes it,
    in binary64 arithmetic, which is the exact percentage up to a relative
    error of 2^-51; the values passed to [setProgress] during the run
    never decrease; and when the loop comes to its end they are
    [(0 / N) * 100], ..., [((N - 1) / N) * 100] followed by a single 100,
    which is the value [progress] holds when the handler returns.  When a
    per-track request faults, the values are those of the requests sent so
    far and 100 is never emitted. *)
Theorem handleFetch_progress (env : Env) (w : World) (data : SourceData.t) :
  sourceAnswer env (sess w) (calls w) = Ok data ->
  present (SourceData.error data) = false ->
  let raw := SourceData.tracks data in
  let N := List.length raw in
  let ans := answers env (S (calls w)) raw in
  let r := click (handleFetch env) w in
  progressAtCalls None (events r) =
    map (fun i => Some (percent i N)) (seq 0 (issued ans)) /\
  (forall i, i < N ->
     let exact := (inject_Z (Z.of_nat i) / inject_Z (Z.of_nat N) * 100)%Q in
     (Qabs (percent i N - exact) <= exact * (1 # 2 ^ 51))%Q) /\
  StronglySorted Qle (progressValues (events r)) /\
  (firstThrow ans = None ->
   progressValues (events r) = map (fun i => percent i N) (seq 0 N) ++ [100%Q] /\
   progress (sess (world r)) = 100%Q) /\
  (forall m, firstThrow ans = Some m ->
   progressValues (events r) = map (fun i => percent i N) (seq 0 (issued ans))).
Proof.
  intros Hsrc Herr. cbv zeta.
  rewrite (handleFetch_enrich env w data Hsrc Herr). cbv zeta.
  set (raw := SourceData.tracks data).
  set (N := List.length raw).
  set (w1 := mkWorld (opened (sess w)) (S (calls w))).
  set (ans := answers env (S (calls w)) raw).
  destruct (enrich_run env raw w1) as (Hout & _ & _).
  assert (HatL := forLoop_progressAtCalls env N raw 0 [] w1).
  assert (HvalL := forLoop_progressValues env N raw 0 [] w1).
  change (forLoop env N 0 raw [] w1) with (enrich env raw w1) in HatL, HvalL.
  change (answers env (calls w1) raw) with ans in Hout, HatL, HvalL.
  destruct (enrich env raw w1) as [oL wL evL].
  cbn [outcome world events] in *. subst oL.
  assert (Hk : issued ans <= N).
  { unfold N. rewrite <- (answers_length env (S (calls w)) raw). apply issued_le. }
  assert (Hsorted := percent_sorted N (issued ans) 0 Hk).
  assert (Hgen : forall tail,
             (forall current, progressAtCalls current tail = []) ->
             progressAtCalls None
               (opening ++ Fetch (sourceRequest (sess w)) :: evL ++ tail) =
               map (fun i => Some (percent i N)) (seq 0 (issued ans)) /\
             progressValues
               (opening ++ Fetch (sourceRequest (sess w)) :: evL ++ tail) =
               map (fun i => percent i N) (seq 0 (issued ans))
               ++ progressValues tail).
  { intros tail Hquiet. split.
    - cbn [opening app progressAtCalls].
      unfold sourceRequest. destruct (sourceMode (sess w)); cbn [progressAtCalls];
        now rewrite progressAtCalls_app_quiet.
    - cbn [opening app progressValues].
      now rewrite progressValues_app, HvalL. }
  assert (Hexact : forall i, i < N ->
             let exact := (inject_Z (Z.of_nat i) / inject_Z (Z.of_nat N) * 100)%Q in
             (Qabs (percent i N - exact) <= exact * (1 # 2 ^ 51))%Q).
  { intros i _. apply percent_error. }
  destruct (firstThrow ans) as [m0 |] eqn:Hft.
  - cbn [events world sess]. rewrite <- app_assoc. cbn [app].
    destruct (Hgen (caught m0)) as (Hat & Hval); [reflexivity |].
    rewrite Hat, Hval. cbn [caught progressValues]. rewrite app_nil_r.
    split; [reflexivity |]. split; [exact Hexact |]. split; [| split].
    + now apply StronglySorted_app_l in Hsorted.
    + discriminate.
    + reflexivity.
  - assert (HN : issued ans = N).
    { rewrite (issued_all ans Hft). unfold ans, N. apply answers_length. }
    destruct (solve env (calls wL) (foundTracks ans) (mixLength (sess w)))
      as [[mix | message] | m];
      cbn [events world sess]; rewrite <- !app_assoc; cbn [app];
      match goal with
      | |- context [evL ++ ?tl] =>
          destruct (Hgen tl) as (Hat & Hval); [reflexivity |]
      end;
      rewrite Hat, Hval; cbn [solving caught app progressValues];
      (split; [reflexivity |]); (split; [exact Hexact |]);
      (split; [exact Hsorted |]);
      (split; [intros _; rewrite HN; split; reflexivity | discriminate]).
Qed.

Lemma handleFetch_progress_witness :
  map Qred (progressValues
              (events (click (handleFetch Sample.backend) Sample.authenticated)))
  = [0%Q; 50%Q; 100%Q].
Proof.
  rewrite (proj1 (proj1 (proj2 (proj2 (proj2 (handleFetch_progress
                           Sample.backend Sample.authenticated
                           (SourceData.mk Sample.rawTracks None) eq_refl eq_refl))))
                        eq_refl)).
  vm_compute. reflexivity.
Defined.

(* ------------------------------------------------------------------ *)
(** ** The scenarios, run *)

(** On the cooperating backend the run ends on the results screen with
    both tracks in the mix. *)
Example backend_run_reaches_results :
  step (sess Sample.mixed) = results /\
  map EnrichedTrack.id (resultMix (sess Sample.mixed)) = ["t1"; "t2"] /\
  savedUrl (sess Sample.saved) = "https://open.example/playlist/1".
Proof. repeat split. Qed.

(** When the second per-track request is lost, the run ends back on the
    configuration screen with the fault's message; the first track, though
    found, is kept nowhere, and the solver is never called. *)
Example flaky_run_keeps_nothing :
  let r := click (handleFetch Sample.flaky) (mount Sample.configuring) in
  step (sess (world r)) = source /\
  error (sess (world r)) = "Failed to fetch" /\
  tracks (sess (world r)) = [] /\
  requests (events r) =
    PostPlaylist "37i9dQZF1DX4dyzvuaRJ0n" client
    :: map PostFeatures Sample.rawTracks /\
  progressValues (events r) = [percent 0 2; percent 1 2] /\
  status (sess (world r)) = "Processing [2/2]: Da Funk".
Proof. repeat split. Qed.

(** A refused save is shown in an alert and changes nothing. *)
Example refused_save_alerts :
  let r := click (handleSave Sample.flaky) Sample.mixed in
  sess (world r) = sess Sample.mixed /\
  events r = [Fetch (PostSave ["spotify:track:t1"; "spotify:track:t2"]);
              Alert "Error: token expired"].
Proof. split; reflexivity. Qed.

(* ------------------------------------------------------------------ *)
(** ** The user authentication flow *)

(** The run of [handleAuth] in user mode, case by case. *)
Lemma handleAuth_user_run (env : Env) (w : World) :
  authMode (sess w) = user ->
  click (handleAuth env) w =
  match authUrl env (calls w) with
  | Throw m =>
      mkRun (Ok tt) (mkWorld (apply (SetError m) (sess w)) (S (calls w)))
            [Fetch GetAuthUrl; SetState (SetError m)]
  | Ok data =>
      let shown := [Fetch GetAuthUrl; WindowOpen (AuthUrlData.url data);
                    Prompt redirectPrompt] in
      match prompt env redirectPrompt with
      | Some (String c rest) =>
          let pasted := String c rest in
          let last :=
            match authToken env (S (calls w)) pasted with
            | Throw m => SetError m
            | Ok tokenData =>
                if TokenData.success tokenData then SetStep source
                else SetError (or_else (TokenData.error tokenData) "Auth Failed")
            end in
          mkRun (Ok tt) (mkWorld (apply last (sess w)) (S (S (calls w))))
                (shown ++ [Fetch (PostAuthToken pasted); SetState last])
      | _ => mkRun (Ok tt) (mkWorld (sess w) (S (calls w))) shown
      end
  end.
Proof.
  intros Hmode. unfold click, handleAuth. rewrite Hmode.
  unfold try_catch, bind, fetch, windowOpen, askPrompt, emit, ret,
    setStep, setError, set, bind.
  cbn [outcome world events sess calls].
  destruct (authUrl env (calls w)) as [data | m]; [| reflexivity].
  cbn [outcome world events sess calls app].
  destruct (prompt env redirectPrompt) as [[| c rest] |]; try reflexivity.
  cbn [outcome world events sess calls app].
  destruct (authToken env (S (calls w)) (String c rest)) as [tokenData | m];
    [| reflexivity].
  destruct (TokenData.success tokenData); reflexivity.
Qed.

(** X1.  In user mode, when the authorization URL is obtained, the user
    pastes a non-empty redirect URL and the exchange succeeds, the session
    moves to [source].  Exactly two requests are sent, the URL request and
    then the exchange carrying the pasted text as it is; the browser
    window is opened on the URL received before the prompt is shown; and
    no state cell other than [step] changes. *)
Theorem handleAuth_user_success
        (env : Env) (w : World) (data : AuthUrlData.t) (pasted : string)
        (tokenData : TokenData.t) :
  authMode (sess w) = user ->
  authUrl env (calls w) = Ok data ->
  prompt env redirectPrompt = Some pasted -> truthy pasted = true ->
  authToken env (S (calls w)) pasted = Ok tokenData ->
  TokenData.success tokenData = true ->
  let r := click (handleAuth env) w in
  outcome r = Ok tt /\
  sess (world r) = apply (SetStep source) (sess w) /\
  events r = [Fetch GetAuthUrl; WindowOpen (AuthUrlData.url data);
              Prompt redirectPrompt; Fetch (PostAuthToken pasted);
              SetState (SetStep source)] /\
  calls (world r) = calls w + 2.
Proof.
  intros Hmode Hurl Hprompt Hpasted Htoken Hsuccess. cbv zeta.
  rewrite (handleAuth_user_run env w Hmode), Hurl. cbv zeta. rewrite Hprompt.
  destruct pasted as [| c rest]; [discriminate Hpasted |].
  rewrite Htoken, Hsuccess. cbn. repeat split. lia.
Qed.

Lemma handleAuth_user_success_witness :
  step (sess (world (click (handleAuth Sample.backend) (mount Sample.userSession))))
  = source.
Proof.
  exact (f_equal step
           (proj1 (proj2 (handleAuth_user_success
                            Sample.backend (mount Sample.userSession)
                            (AuthUrlData.mk "https://accounts.example/authorize")
                            Sample.callback (TokenData.mk true None)
                            eq_refl eq_refl eq_refl eq_refl eq_refl eq_refl)))).
Defined.

(** X2.  In user mode, when the exchange is answered with a false
    [success], the step is kept and [error] becomes the reply's [error],
    or "Auth Failed" when the reply has none or an empty one; in either
    case the error banner is on the screen afterwards. *)
Theorem handleAuth_user_refused
        (env : Env) (w : World) (data : AuthUrlData.t) (pasted : string)
        (tokenData : TokenData.t) :
  authMode (sess w) = user ->
  authUrl env (calls w) = Ok data ->
  prompt env redirectPrompt = Some pasted -> truthy pasted = true ->
  authToken env (S (calls w)) pasted = Ok tokenData ->
  TokenData.success tokenData = false ->
  let r := click (handleAuth env) w in
  let message := or_else (TokenData.error tokenData) "Auth Failed" in
  outcome r = Ok tt /\
  sess (world r) = apply (SetError message) (sess w) /\
  step (sess (world r)) = step (sess w) /\
  errorShown (sess (world r)) = true /\
  (present (TokenData.error tokenData) = false -> message = "Auth Failed") /\
  (forall e, TokenData.error tokenData = Some e -> truthy e = true -> message = e).
Proof.
  intros Hmode Hurl Hprompt Hpasted Htoken Hsuccess. cbv zeta.
  rewrite (handleAuth_user_run env w Hmode), Hurl. cbv zeta. rewrite Hprompt.
  destruct pasted as [| c rest]; [discriminate Hpasted |].
  rewrite Htoken, Hsuccess. cbn [outcome world sess].
  split; [reflexivity |]. split; [reflexivity |]. split; [reflexivity |].
  unfold errorShown. cbn [apply error].
  destruct (TokenData.error tokenData) as [[| c' rest'] |]; cbn;
    repeat split; try reflexivity; try discriminate;
    intros e He; injection He as <-; try reflexivity; discriminate.
Qed.

Lemma handleAuth_user_refused_witness :
  error (sess (world (click (handleAuth Sample.refusingOnce)
                            (mount Sample.userSession))))
  = "Auth Failed".
Proof.
  exact (f_equal error
           (proj1 (proj2 (handleAuth_user_refused
                            Sample.refusingOnce (mount Sample.userSession)
                            (AuthUrlData.mk "https://accounts.example/authorize")
                            Sample.callback (TokenData.mk false None)
                            eq_refl eq_refl eq_refl eq_refl eq_refl eq_refl)))).
Defined.

(** X3.  In user mode a fault of either request is caught: the step is
    kept and [error] becomes the fault's message.  When it is the URL
    request that faults, nothing else happens: no window is opened, no
    prompt is shown and no exchange is attempted. *)
Theorem handleAuth_user_fault (env : Env) (w : World) :
  authMode (sess w) = user ->
  let r := click (handleAuth env) w in
  (forall m,
      authUrl env (calls w) = Throw m ->
      outcome r = Ok tt /\
      sess (world r) = apply (SetError m) (sess w) /\
      events r = [Fetch GetAuthUrl; SetState (SetError m)]) /\
  (forall data pasted m,
      authUrl env (calls w) = Ok data ->
      prompt env redirectPrompt = Some pasted -> truthy pasted = true ->
      authToken env (S (calls w)) pasted = Throw m ->
      outcome r = Ok tt /\
      sess (world r) = apply (SetError m) (sess w) /\
      requests (events r) = [GetAuthUrl; PostAuthToken pasted]).
Proof.
  intros Hmode. cbv zeta. rewrite (handleAuth_user_run env w Hmode). split.
  - intros m Hurl. rewrite Hurl. repeat split.
  - intros data pasted m Hurl Hprompt Hpasted Htoken.
    rewrite Hurl. cbv zeta. rewrite Hprompt.
    destruct pasted as [| c rest]; [discriminate Hpasted |].
    rewrite Htoken. repeat split.
Qed.

Lemma handleAuth_user_fault_witness :
  let env := mkEnv (fun _ => Throw "Failed to fetch")
                   (authToken Sample.backend) (playlistTracks Sample.backend)
                   (recommendations Sample.backend) (features Sample.backend)
                   (solve Sample.backend) (save Sample.backend)
                   (prompt Sample.backend) in
  events (click (handleAuth env) (mount Sample.userSession))
  = [Fetch GetAuthUrl; SetState (SetError "Failed to fetch")].
Proof.
  intros env.
  exact (proj2 (proj2 (proj1 (handleAuth_user_fault
                                env (mount Sample.userSession) eq_refl)
                             "Failed to fetch" eq_refl))).
Defined.

(** X4.  Whatever the mode, the replies and the user's answer,
    [handleAuth] ends normally and calls at most one setter: either it
    calls none and the session is left as it was, or its only setter call
    is [setStep('source')], or its only setter call is one [setError].
    In client mode it sends no request and the call is
    [setStep('source')].  In user mode it always sends the URL request
    first, and after it at most one exchange, which carries the non-empty
    text the user pasted. *)
Theorem handleAuth_always (env : Env) (w : World) :
  let r := click (handleAuth env) w in
  outcome r = Ok tt /\
  (updates (events r) = [] /\ sess (world r) = sess w \/
   updates (events r) = [SetStep source] /\
   sess (world r) = apply (SetStep source) (sess w) \/
   exists m,
     updates (events r) = [SetError m] /\
     sess (world r) = apply (SetError m) (sess w)) /\
  (authMode (sess w) = client ->
   requests (events r) = [] /\ updates (events r) = [SetStep source]) /\
  (authMode (sess w) = user ->
   requests (events r) = [GetAuthUrl] \/
   exists pasted,
     prompt env redirectPrompt = Some pasted /\ truthy pasted = true /\
     requests (events r) = [GetAuthUrl; PostAuthToken pasted]) /\
  calls (world r) = calls w + List.length (requests (events r)).
Proof.
  cbv zeta. destruct (authMode (sess w)) eqn:Hmode.
  - unfold click, handleAuth. rewrite Hmode. cbn.
    split; [reflexivity |]. split; [auto |]. split; [auto |].
    split; [discriminate | lia].
  - rewrite (handleAuth_user_run env w Hmode).
    destruct (authUrl env (calls w)) as [data | m].
    + cbv zeta.
      destruct (prompt env redirectPrompt) as [[| c rest] |] eqn:Hprompt.
      * cbn. split; [reflexivity |]. split; [auto |]. split; [discriminate |].
        split; [auto | lia].
      * cbn [outcome world sess events calls].
        split; [reflexivity |]. split; [| split; [discriminate | split]].
        -- destruct (authToken env (S (calls w)) (String c rest)) as [tokenData | m];
             [destruct (TokenData.success tokenData) |]; cbn; eauto.
        -- intros _. right. exists (String c rest). repeat split.
        -- cbn. lia.
      * cbn. split; [reflexivity |]. split; [auto |]. split; [discriminate |].
        split; [auto | lia].
    + cbn. split; [reflexivity |]. split; [eauto |]. split; [discriminate |].
      split; [auto | lia].
Qed.

Lemma handleAuth_always_witness :
  let r := click (handleAuth Sample.refusingOnce) (mount Sample.userSession) in
  requests (events r) = [GetAuthUrl] \/
  exists pasted,
    prompt Sample.refusingOnce redirectPrompt = Some pasted /\
    truthy pasted = true /\
    requests (events r) = [GetAuthUrl; PostAuthToken pasted].
Proof.
  exact (proj1 (proj2 (proj2 (proj2
           (handleAuth_always Sample.refusingOnce (mount Sample.userSession)))))
           eq_refl).
Defined.

(* ------------------------------------------------------------------ *)
(** ** The processing stage, every run *)

Lemma sameButProgress_opened (s sL : Session) :
  sameButProgress (opened s) sL ->
  sL = mkSession processing (authMode s) (sourceMode s) (inputValue s)
                 (mixLength s) (tracks s) (progress sL) (status sL)
                 (resultMix s) (savedUrl s) "".
Proof.
  unfold sameButProgress. destruct s, sL; cbn. intros H.
  injection H as -> -> -> -> -> -> -> -> ->. reflexivity.
Qed.

Lemma last_cons_default {A} (l : list A) : forall x d d',
  last (x :: l) d = last (x :: l) d'.
Proof.
  induction l as [| y l IH]; intros x d d'; [reflexivity |].
  change (last (y :: l) d = last (y :: l) d'). apply IH.
Qed.

(** After the loop [progress] holds the value last passed to
    [setProgress], if any. *)
Lemma forLoop_progress env total raw : forall i processed w,
  progress (sess (world (forLoop env total i raw processed w))) =
  last (progressValues (events (forLoop env total i raw processed w)))
       (progress (sess w)).
Proof.
  induction raw as [| t rest IH]; intros i processed w.
  - reflexivity.
  - rewrite forLoop_cons. cbv zeta.
    destruct (features env (calls w) t) as [featData | m].
    + cbn [world events app progressValues]. rewrite IH. cbn [sess].
      destruct (progressValues _) as [| q l]; [reflexivity |].
      change (last (q :: l) (percent i total) = last (q :: l) (progress (sess w))).
      apply last_cons_default.
    + reflexivity.
Qed.

(** The run of [handleFetch] once the source has answered with its
    tracks, in terms of the answers of the feature service and of the
    solver. *)
Lemma handleFetch_shape (env : Env) (w : World) (data : SourceData.t) :
  sourceAnswer env (sess w) (calls w) = Ok data ->
  present (SourceData.error data) = false ->
  let s := sess w in
  let raw := SourceData.tracks data in
  let ans := answers env (S (calls w)) raw in
  let out := foundTracks ans in
  let solved := solve env (S (calls w) + List.length raw) out (mixLength s) in
  exists sL evL,
    sameButProgress (opened s) sL /\
    requests evL = map PostFeatures (firstn (issued ans) raw) /\
    progressValues evL =
      map (fun j => percent j (List.length raw)) (seq 0 (issued ans)) /\
    progress sL = last (progressValues evL) (progress s) /\
    click (handleFetch env) w =
    match firstThrow ans with
    | Some m =>
        mkRun (Ok tt) (mkWorld (recovered m sL) (S (calls w) + issued ans))
              (opening ++ Fetch (sourceRequest s) :: evL ++ caught m)
    | None =>
        mkRun (Ok tt)
              (mkWorld
                 match solved with
                 | Ok (Solved mix) =>
                     apply (SetStep results)
                           (apply (SetResultMix mix) (handedOver out sL))
                 | Ok (Unsolved message) =>
                     recovered (or_else message "Solver failed") (handedOver out sL)
                 | Throw m => recovered m (handedOver out sL)
                 end
                 (S (S (calls w) + List.length raw)))
              (opening ++ Fetch (sourceRequest s) :: evL
               ++ solving out (mixLength s)
               ++ match solved with
                  | Ok (Solved mix) =>
                      [SetState (SetResultMix mix); SetState (SetStep results)]
                  | Ok (Unsolved message) => caught (or_else message "Solver failed")
                  | Throw m => caught m
                  end)
    end.
Proof.
  intros Hsrc Herr. cbv zeta.
  rewrite (handleFetch_enrich env w data Hsrc Herr). cbv zeta.
  set (raw := SourceData.tracks data).
  set (w1 := mkWorld (opened (sess w)) (S (calls w))).
  set (ans := answers env (S (calls w)) raw).
  destruct (enrich_run env raw w1) as (Hout & Hcalls & Hframe).
  assert (Hreq := forLoop_requests env (List.length raw) raw 0 [] w1).
  assert (Hval := forLoop_progressValues env (List.length raw) raw 0 [] w1).
  assert (Hprog := forLoop_progress env (List.length raw) raw 0 [] w1).
  change (forLoop env (List.length raw) 0 raw [] w1) with (enrich env raw w1)
    in Hreq, Hval, Hprog.
  change (answers env (calls w1) raw) with ans in Hout, Hcalls, Hreq, Hval.
  change (calls w1) with (S (calls w)) in Hcalls.
  change (sess w1) with (opened (sess w)) in Hframe, Hprog.
  change (progress (opened (sess w))) with (progress (sess w)) in Hprog.
  destruct (enrich env raw w1) as [oL wL evL].
  cbn [outcome world events] in *. subst oL.
  exists (sess wL), evL.
  split; [exact Hframe |]. split; [exact Hreq |]. split; [exact Hval |].
  split; [exact Hprog |].
  destruct (firstThrow ans) as [m |] eqn:Hft.
  - rewrite Hcalls, <- app_assoc. reflexivity.
  - assert (Hn : calls wL = S (calls w) + List.length raw).
    { rewrite Hcalls, (issued_all ans Hft). unfold ans. now rewrite answers_length. }
    rewrite Hn.
    destruct (solve env (S (calls w) + List.length raw) (foundTracks ans)
                    (mixLength (sess w))) as [[mix | message] | m];
      rewrite <- !app_assoc; reflexivity.
Qed.

Lemma requests_opening (src : Request) (evL tail : list Event) :
  requests (opening ++ Fetch src :: evL ++ tail) =
  src :: requests evL ++ requests tail.
Proof.
  cbn [opening app requests]. now rewrite requests_app.
Qed.

(** X5.  When the source answers with its tracks, no per-track request
    faults and the solver returns a mix, the run ends on [results] with
    that mix.  The session it leaves is fully determined: [tracks] holds
    the found tracks, [progress] is 100, [status] is the last one set,
    [error] is empty, and the four inputs and [savedUrl] are those of the
    session the run started from; what [tracks] and [resultMix] held
    before plays no part.  One request was sent for the source, one per
    track in input order, and one for the solver. *)
Theorem handleFetch_success
        (env : Env) (w : World) (data : SourceData.t) (mix : list EnrichedTrack.t) :
  sourceAnswer env (sess w) (calls w) = Ok data ->
  present (SourceData.error data) = false ->
  let s := sess w in
  let raw := SourceData.tracks data in
  let ans := answers env (S (calls w)) raw in
  firstThrow ans = None ->
  solve env (S (calls w) + List.length raw) (foundTracks ans) (mixLength s)
    = Ok (Solved mix) ->
  let r := click (handleFetch env) w in
  outcome r = Ok tt /\
  sess (world r) =
    mkSession results (authMode s) (sourceMode s) (inputValue s) (mixLength s)
              (foundTracks ans) 100 "Running Solver..." mix (savedUrl s) "" /\
  requests (events r) =
    sourceRequest s :: map PostFeatures raw
    ++ [PostSolve (foundTracks ans) (mixLength s)] /\
  calls (world r) = calls w + List.length raw + 2.
Proof.
  intros Hsrc Herr s raw ans Hft Hsolve. cbv zeta.
  destruct (handleFetch_shape env w data Hsrc Herr)
    as (sL & evL & Hframe & Hreq & _ & _ & Hrun).
  cbv zeta in Hrun. fold s raw ans in Hrun, Hreq, Hframe.
  rewrite Hrun, Hft, Hsolve. cbn [outcome world sess events calls].
  split; [reflexivity |]. split; [| split].
  - rewrite (sameButProgress_opened s sL Hframe). reflexivity.
  - rewrite requests_opening, requests_app, Hreq.
    rewrite (issued_all ans Hft). unfold ans at 1. rewrite answers_length.
    rewrite firstn_all. reflexivity.
  - lia.
Qed.

Lemma handleFetch_success_witness :
  sess (world (click (handleFetch Sample.backend) (mount Sample.configuring)))
  = mkSession results client playlist "37i9dQZF1DX4dyzvuaRJ0n" (LengthNumber 45)
              (map Sample.enriched Sample.rawTracks) 100 "Running Solver..."
              (map Sample.enriched Sample.rawTracks) "" "".
Proof.
  exact (proj1 (proj2 (handleFetch_success
                         Sample.backend (mount Sample.configuring)
                         (SourceData.mk Sample.rawTracks None)
                         (map Sample.enriched Sample.rawTracks)
                         eq_refl eq_refl eq_refl eq_refl))).
Defined.

(** The three ways a run of [handleFetch] can go, by the answer of the
    source. *)
Lemma handleFetch_source_cases (env : Env) (w : World) :
  (exists m,
      click (handleFetch env) w =
      mkRun (Ok tt) (mkWorld (recovered m (opened (sess w))) (S (calls w)))
            (opening ++ Fetch (sourceRequest (sess w)) :: caught m) /\
      match sourceAnswer env (sess w) (calls w) with
      | Ok data => present (SourceData.error data) = true
      | Throw _ => True
      end) \/
  (exists data,
      sourceAnswer env (sess w) (calls w) = Ok data /\
      present (SourceData.error data) = false).
Proof.
  destruct (sourceAnswer env (sess w) (calls w)) as [data | m] eqn:Hsrc.
  - destruct (SourceData.error data) as [[| c rest] |] eqn:He.
    + right. exists data. rewrite He. split; reflexivity.
    + left. exists (String c rest). split; [| reflexivity].
      exact (handleFetch_source_error env w data _ Hsrc He eq_refl).
    + right. exists data. rewrite He. split; reflexivity.
  - left. exists m. split; [| exact I].
    exact (handleFetch_source_fault env w m Hsrc).
Qed.

(** X6.  Every run of [handleFetch] ends normally, on [results] or back
    on [source], never on [processing].  It ends on [results] only with an
    empty [error] and [progress] at 100.  It never changes [authMode],
    [sourceMode], [inputValue], [mixLength] or [savedUrl], and when it
    ends on [source] the previous mix is still there. *)
Theorem handleFetch_always (env : Env) (w : World) :
  let s := sess w in
  let r := click (handleFetch env) w in
  let s' := sess (world r) in
  outcome r = Ok tt /\
  (step s' = results \/ step s' = source) /\
  (step s' = results -> error s' = "" /\ progress s' = 100%Q) /\
  (step s' = source -> resultMix s' = resultMix s) /\
  authMode s' = authMode s /\ sourceMode s' = sourceMode s /\
  inputValue s' = inputValue s /\ mixLength s' = mixLength s /\
  savedUrl s' = savedUrl s /\
  calls (world r) = calls w + List.length (requests (events r)).
Proof.
  cbv zeta.
  destruct (handleFetch_source_cases env w) as [(m & Hrun & _) | (data & Hsrc & Herr)].
  - rewrite Hrun. cbn. repeat split; auto; try discriminate; lia.
  - destruct (handleFetch_shape env w data Hsrc Herr)
      as (sL & evL & Hframe & Hreq & _ & _ & Hrun).
    cbv zeta in Hrun, Hreq. rewrite Hrun.
    set (raw := SourceData.tracks data) in *.
    set (ans := answers env (S (calls w)) raw) in *.
    pose proof (sameButProgress_opened (sess w) sL Hframe) as HsL.
    assert (Hlen : List.length (firstn (issued ans) raw) = issued ans).
    { apply firstn_length_le. unfold ans.
      rewrite <- (answers_length env (S (calls w)) raw). apply issued_le. }
    destruct (firstThrow ans) as [m |] eqn:Hft.
    + cbn [outcome world sess events calls]. rewrite HsL.
      rewrite requests_opening, Hreq. cbn [caught requests].
      rewrite app_nil_r. cbn [List.length]. rewrite length_map, Hlen. cbn.
      repeat split; auto; try discriminate; lia.
    + assert (HN : issued ans = List.length raw).
      { rewrite (issued_all ans Hft). unfold ans. apply answers_length. }
      destruct (solve env (S (calls w) + List.length raw) (foundTracks ans)
                      (mixLength (sess w))) as [[mix | message] | m];
        cbn [outcome world sess events calls]; rewrite HsL;
        rewrite requests_opening, requests_app, Hreq;
        cbn [caught solving requests app List.length];
        rewrite length_app, length_map, Hlen, HN; cbn;
        repeat split; auto; try discriminate; lia.
Qed.

(** X7.  The requests of a run of [handleFetch] are, in this order: the
    source request; then, if the source answered with its tracks, one
    request per track in input order up to and including the first one
    that faults; then, if none faulted, the solve request with the found
    tracks and the target length.  No request is repeated, and a run over
    [N] tracks sends at most [N + 2] requests. *)
Theorem handleFetch_requests (env : Env) (w : World) :
  let s := sess w in
  let r := click (handleFetch env) w in
  match sourceAnswer env s (calls w) with
  | Throw _ => requests (events r) = [sourceRequest s]
  | Ok data =>
      if present (SourceData.error data)
      then requests (events r) = [sourceRequest s]
      else
        let raw := SourceData.tracks data in
        let ans := answers env (S (calls w)) raw in
        requests (events r) =
          sourceRequest s :: map PostFeatures (firstn (issued ans) raw)
          ++ match firstThrow ans with
             | Some _ => []
             | None => [PostSolve (foundTracks ans) (mixLength s)]
             end /\
        List.length (requests (events r)) <= List.length raw + 2
  end.
Proof.
  cbv zeta.
  destruct (handleFetch_source_cases env w) as [(m & Hrun & Hcase) | (data & Hsrc & Herr)].
  - destruct (sourceAnswer env (sess w) (calls w)) as [data | m'];
      [rewrite Hcase |]; rewrite Hrun; reflexivity.
  - rewrite Hsrc, Herr.
    destruct (handleFetch_shape env w data Hsrc Herr)
      as (sL & evL & _ & Hreq & _ & _ & Hrun).
    cbv zeta in Hrun, Hreq. rewrite Hrun.
    set (raw := SourceData.tracks data) in *.
    set (ans := answers env (S (calls w)) raw) in *.
    assert (Hlen : List.length (firstn (issued ans) raw) <= List.length raw).
    { rewrite length_firstn. lia. }
    destruct (firstThrow ans) as [m |]; cbn [events].
    + rewrite requests_opening, Hreq. cbn [caught requests].
      split; [reflexivity |].
      cbn [List.length]. rewrite length_app, length_map. cbn [List.length]. lia.
    + rewrite requests_opening, requests_app, Hreq.
      assert (Htail : forall tail, requests tail = [] ->
                requests (solving (foundTracks ans) (mixLength (sess w))) ++ requests tail
                = [PostSolve (foundTracks ans) (mixLength (sess w))]).
      { intros tail ->. reflexivity. }
      rewrite Htail by (destruct (solve _ _ _ _) as [[mix | message] | m]; reflexivity).
      split; [reflexivity |].
      cbn [List.length]. rewrite length_app, length_map. cbn [List.length]. lia.
Qed.

Lemma percent_bounds (total k : nat) :
  k <= total ->
  Forall (fun p => (0 <= p)%Q /\ (p <= 100)%Q)
         (map (fun j => percent j total) (seq 0 k)).
Proof.
  intros Hk. apply Forall_forall. intros p Hp.
  apply in_map_iff in Hp. destruct Hp as (j & <- & Hj). apply in_seq in Hj.
  split; [apply percent_nonneg | apply percent_le_100; lia].
Qed.

Lemma last_Forall {A} (P : A -> Prop) (l : list A) (d : A) :
  Forall P l -> P d -> P (last l d).
Proof.
  intros Hl Hd. induction Hl as [| x l Hx Hl IH]; [exact Hd |].
  destruct l as [| y l]; [exact Hx | exact IH].
Qed.

Lemma progressValues_opening (src : Request) (evL tail : list Event) :
  progressValues (opening ++ Fetch src :: evL ++ tail) =
  progressValues evL ++ progressValues tail.
Proof.
  cbn [opening app progressValues]. now rewrite progressValues_app.
Qed.

Lemma handleFetch_progress_inBounds (env : Env) (w : World) :
  let inBounds (p : Q) := (0 <= p)%Q /\ (p <= 100)%Q in
  inBounds (progress (sess w)) ->
  inBounds (progress (sess (world (click (handleFetch env) w)))).
Proof.
  cbv zeta. intros Hin.
  destruct (handleFetch_source_cases env w) as [(m & Hrun & _) | (data & Hsrc & Herr)].
  - rewrite Hrun. exact Hin.
  - destruct (handleFetch_shape env w data Hsrc Herr)
      as (sL & evL & _ & _ & Hval & Hprog & Hrun).
    cbv zeta in Hrun, Hval. rewrite Hrun.
    destruct (firstThrow _) as [m |].
    + cbn [world sess]. unfold recovered. cbn [apply progress]. rewrite Hprog.
      apply last_Forall; [| exact Hin].
      rewrite Hval. apply percent_bounds.
      rewrite <- (answers_length env (S (calls w)) (SourceData.tracks data)).
      apply issued_le.
    + cbn [world sess].
      destruct (solve _ _ _ _) as [[mix | message] | m]; cbn; split; discriminate.
Qed.

(** X8.  Every value a run of [handleFetch] passes to [setProgress] lies
    between 0 and 100, whatever the source, the feature service and the
    solver answer; and if [progress] lay between 0 and 100 before the run
    it does so after it. *)
Theorem handleFetch_progress_bounds (env : Env) (w : World) :
  let r := click (handleFetch env) w in
  let inBounds (p : Q) := (0 <= p)%Q /\ (p <= 100)%Q in
  Forall inBounds (progressValues (events r)) /\
  (inBounds (progress (sess w)) -> inBounds (progress (sess (world r)))).
Proof.
  cbv zeta.
  destruct (handleFetch_source_cases env w) as [(m & Hrun & _) | (data & Hsrc & Herr)].
  - rewrite Hrun. cbn. split; [constructor | tauto].
  - destruct (handleFetch_shape env w data Hsrc Herr)
      as (sL & evL & _ & _ & Hval & Hprog & Hrun).
    cbv zeta in Hrun, Hval. rewrite Hrun.
    set (raw := SourceData.tracks data) in *.
    set (ans := answers env (S (calls w)) raw) in *.
    assert (HevL : Forall (fun p => (0 <= p)%Q /\ (p <= 100)%Q) (progressValues evL)).
    { rewrite Hval. apply percent_bounds. unfold ans.
      rewrite <- (answers_length env (S (calls w)) raw). apply issued_le. }
    destruct (firstThrow ans) as [m |].
    + cbn [events world sess]. rewrite progressValues_opening.
      cbn [caught progressValues]. rewrite app_nil_r.
      split; [exact HevL |].
      intros Hin. unfold recovered. cbn [apply progress]. rewrite Hprog.
      now apply last_Forall.
    + cbn [events world sess]. rewrite progressValues_opening, progressValues_app.
      split.
      * apply Forall_app. split; [exact HevL |].
        apply Forall_app. split; [repeat constructor; discriminate |].
        destruct (solve _ _ _ _) as [[mix | message] | m]; constructor.
      * intros _.
        destruct (solve _ _ _ _) as [[mix | message] | m]; cbn;
          split; discriminate.
Qed.

(** X9.  When the loop comes to its end and the solver then faults or
    reports failure, the session goes back to [source] but the enrichment
    is not undone: [tracks] holds the found tracks, [progress] stays at
    100 and [status] still reads "Running Solver...", while the previous
    mix is kept.  When the solver reported the failure, [error] is its
    message, or "Solver failed" for a missing or empty one, so the error
    banner is on the screen. *)
Theorem handleFetch_failed_solve_keeps_tracks
        (env : Env) (w : World) (data : SourceData.t) :
  sourceAnswer env (sess w) (calls w) = Ok data ->
  present (SourceData.error data) = false ->
  let s := sess w in
  let raw := SourceData.tracks data in
  let ans := answers env (S (calls w)) raw in
  let solved := solve env (S (calls w) + List.length raw) (foundTracks ans)
                      (mixLength s) in
  firstThrow ans = None ->
  (forall mix, solved <> Ok (Solved mix)) ->
  let s' := sess (world (click (handleFetch env) w)) in
  step s' = source /\
  tracks s' = foundTracks ans /\
  progress s' = 100%Q /\
  status s' = "Running Solver..." /\
  resultMix s' = resultMix s /\
  (forall message,
      solved = Ok (Unsolved message) ->
      error s' = or_else message "Solver failed" /\ errorShown s' = true) /\
  (forall m, solved = Throw m -> error s' = m).
Proof.
  intros Hsrc Herr s raw ans solved Hft Hnomix. cbv zeta.
  destruct (handleFetch_shape env w data Hsrc Herr)
    as (sL & evL & Hframe & _ & _ & _ & Hrun).
  cbv zeta in Hrun. fold s raw ans solved in Hrun, Hframe.
  rewrite Hrun, Hft. cbn [world sess].
  rewrite (sameButProgress_opened s sL Hframe).
  destruct solved as [[mix | message] | m] eqn:Hsolved.
  - exfalso. exact (Hnomix mix eq_refl).
  - cbn [recovered handedOver apply step tracks progress status resultMix error].
    do 5 (split; [reflexivity |]). split; [| discriminate].
    intros message' Heq. injection Heq as <-. split; [reflexivity |].
    unfold errorShown. cbn [error].
    destruct message as [[| c rest] |]; reflexivity.
  - cbn [recovered handedOver apply step tracks progress status resultMix error].
    do 5 (split; [reflexivity |]). split; [discriminate |].
    intros m' Heq. injection Heq as <-. reflexivity.
Qed.

Lemma handleFetch_failed_solve_keeps_tracks_witness :
  let env := mkEnv (authUrl Sample.backend) (authToken Sample.backend)
                   (playlistTracks Sample.backend) (recommendations Sample.backend)
                   (features Sample.backend)
                   (fun _ _ _ => Ok (Unsolved (Some "")))
                   (save Sample.backend) (prompt Sample.backend) in
  let s' := sess (world (click (handleFetch env) (mount Sample.configuring))) in
  tracks s' = map Sample.enriched Sample.rawTracks /\ error s' = "Solver failed".
Proof.
  intros env s'.
  pose proof (handleFetch_failed_solve_keeps_tracks
                env (mount Sample.configuring)
                (SourceData.mk Sample.rawTracks None)
                eq_refl eq_refl eq_refl
                (fun mix H => eq_ind (Ok (Unsolved (Some "")))
                                (fun o => match o with
                                          | Ok (Unsolved _) => True
                                          | _ => False
                                          end) I _ H))
    as (_ & Htracks & _ & _ & _ & Hshown & _).
  split; [exact Htracks |].
  exact (proj1 (Hshown (Some "") eq_refl)).
Defined.

(* ------------------------------------------------------------------ *)
(** ** The exported file *)

Lemma oneLine_app (a b : string) :
  oneLine (a ++ b) = oneLine a && oneLine b.
Proof.
  induction a as [| c a IH]; cbn [oneLine append andb]; [reflexivity |].
  rewrite IH. apply andb_assoc.
Qed.

Lemma splitLines_oneLine (a : string) :
  oneLine a = true -> splitLines a = [a].
Proof.
  induction a as [| c a IH]; cbn [oneLine splitLines]; intros H; [reflexivity |].
  apply andb_true_iff in H. destruct H as (Hc & Ha).
  destruct (Ascii.eqb c (ascii_of_nat 10)); [discriminate Hc |].
  now rewrite (IH Ha).
Qed.

Lemma splitLines_app (a b : string) :
  oneLine a = true ->
  splitLines (a ++ newline ++ b) = a :: splitLines b.
Proof.
  induction a as [| c a IH]; cbn [oneLine splitLines append]; intros H.
  - unfold newline. cbn [append splitLines].
    now rewrite Ascii.eqb_refl.
  - apply andb_true_iff in H. destruct H as (Hc & Ha).
    destruct (Ascii.eqb c (ascii_of_nat 10)); [discriminate Hc |].
    now rewrite (IH Ha).
Qed.

(** X10.  Splitting the exported text at its newlines gives back the
    lines ["<artist> - <name>"] of the mix, one per track and in order,
    provided the mix is not empty and no artist or track name contains a
    newline; so the file then has exactly as many lines as the mix has
    tracks.  The text of an empty mix is empty, which splits into a single
    empty line. *)
Theorem exportText_lines (mix : list EnrichedTrack.t) :
  mix <> [] ->
  (forall t, In t mix ->
     oneLine (EnrichedTrack.artist t) = true /\
     oneLine (EnrichedTrack.name t) = true) ->
  splitLines (exportText mix) = map line mix /\
  List.length (splitLines (exportText mix)) = List.length mix /\
  splitLines (exportText []) = [""].
Proof.
  intros Hne Hone.
  assert (Hline : forall t, In t mix -> oneLine (line t) = true).
  { intros t Ht. destruct (Hone t Ht) as (Ha & Hn).
    unfold line. rewrite !oneLine_app, Ha, Hn. reflexivity. }
  assert (Hsplit : splitLines (exportText mix) = map line mix).
  { clear Hone. unfold exportText. fold line.
    change (fun t => (EnrichedTrack.artist t ++ " - " ++ EnrichedTrack.name t)%string)
      with line.
    induction mix as [| t mix IH]; [now elim Hne |].
    destruct mix as [| t' mix].
    - cbn. apply splitLines_oneLine. apply Hline. now left.
    - change (join newline (map line (t :: t' :: mix)))
        with (line t ++ newline ++ join newline (map line (t' :: mix)))%string.
      rewrite splitLines_app by (apply Hline; now left).
      rewrite IH; [reflexivity | discriminate |].
      intros x Hx. apply Hline. now right. }
  split; [exact Hsplit |]. split; [| reflexivity].
  rewrite Hsplit. apply length_map.
Qed.

Lemma exportText_lines_witness :
  splitLines (exportText (map Sample.enriched Sample.rawTracks))
  = ["Daft Punk - Around the World"; "Daft Punk - Da Funk"].
Proof.
  refine (proj1 (exportText_lines (map Sample.enriched Sample.rawTracks) _ _)).
  - discriminate.
  - intros t [<- | [<- | []]]; split; reflexivity.
Defined.

(* ------------------------------------------------------------------ *)
(** ** Sessions driven from the screen *)

Lemma handleAuth_session (env : Env) (w : World) :
  let r := click (handleAuth env) w in
  (sess (world r) = sess w \/
   sess (world r) = apply (SetStep source) (sess w) \/
   exists m, sess (world r) = apply (SetError m) (sess w)) /\
  (forall uris, ~ In (PostSave uris) (requests (events r))).
Proof.
  cbv zeta. destruct (authMode (sess w)) eqn:Hmode.
  - unfold click, handleAuth. rewrite Hmode. cbn. split; [auto | tauto].
  - rewrite (handleAuth_user_run env w Hmode).
    destruct (authUrl env (calls w)) as [data | m].
    + cbv zeta. destruct (prompt env redirectPrompt) as [[| c rest] |].
      * cbn. split; [auto |]. intros uris [H | []]. discriminate H.
      * cbn [world sess events]. split.
        -- destruct (authToken env (S (calls w)) (String c rest)) as [tokenData | m];
             [destruct (TokenData.success tokenData) |]; eauto.
        -- cbn. intros uris [H | [H | []]]; discriminate H.
      * cbn. split; [auto |]. intros uris [H | []]. discriminate H.
    + cbn. split; [eauto |]. intros uris [H | []]. discriminate H.
Qed.

Lemma handleSave_session (env : Env) (w : World) :
  let r := click (handleSave env) w in
  sess (world r) = sess w \/
  exists u, sess (world r) = apply (SetSavedUrl u) (sess w).
Proof.
  cbv zeta. unfold click, handleSave, try_catch, bind, fetch, alert, emit,
    setSavedUrl, set.
  cbn [outcome events world sess calls].
  destruct (save env (calls w) _) as [data | e];
    cbn [outcome events world sess calls]; [| now left].
  destruct (SaveData.url data) as [[| c rest] |];
    cbn [outcome events world sess calls]; eauto.
Qed.

Lemma handleFetch_session (env : Env) (w : World) :
  let s := sess w in
  let r := click (handleFetch env) w in
  let s' := sess (world r) in
  (step s' = results /\ error s' = "" /\ progress s' = 100%Q \/ step s' = source) /\
  authMode s' = authMode s /\ savedUrl s' = savedUrl s /\
  (forall uris, ~ In (PostSave uris) (requests (events r))).
Proof.
  cbv zeta.
  destruct (handleFetch_source_cases env w) as [(m & Hrun & _) | (data & Hsrc & Herr)].
  - rewrite Hrun. cbn. repeat split; auto.
    intros uris [H | []]. unfold sourceRequest in H.
    destruct (sourceMode (sess w)); discriminate H.
  - destruct (handleFetch_shape env w data Hsrc Herr)
      as (sL & evL & Hframe & Hreq & _ & _ & Hrun).
    cbv zeta in Hrun, Hreq. rewrite Hrun.
    pose proof (sameButProgress_opened (sess w) sL Hframe) as HsL.
    assert (Hnosave : forall uris tail,
               ~ In (PostSave uris) (requests tail) ->
               ~ In (PostSave uris)
                    (requests (opening ++ Fetch (sourceRequest (sess w))
                                         :: evL ++ tail))).
    { intros uris tail Htail. rewrite requests_opening, Hreq.
      intros [H | H].
      - unfold sourceRequest in H. destruct (sourceMode (sess w)); discriminate H.
      - apply in_app_or in H. destruct H as [H | H]; [| exact (Htail H)].
        apply in_map_iff in H. destruct H as (t & Ht & _). discriminate Ht. }
    destruct (firstThrow _) as [m |].
    + cbn [world sess events]. rewrite HsL. cbn.
      repeat split; auto. intros uris. apply Hnosave. cbn. tauto.
    + cbn [world sess events].
      destruct (solve _ _ _ _) as [[mix | message] | m]; rewrite HsL;
        cbn [recovered handedOver apply step error progress authMode savedUrl];
        (split; [auto |]); (split; [reflexivity |]); (split; [reflexivity |]);
        intros uris; apply Hnosave; cbn; intros [H | []]; discriminate H.
Qed.

(** On a results screen the user has reached, no error is left. *)
Lemma reachable_results_error (env : Env) (w : World) (evs : list Event) :
  Reaches env w evs -> step (sess w) = results -> error (sess w) = "".
Proof.
  induction 1 as [| w evs c _ IH Hoff].
  - discriminate.
  - destruct c as [e | | | | |]; cbn [perform world sess].
    + unfold offered in Hoff.
      destruct (step (sess w)) eqn:Hs; try discriminate Hoff;
        destruct e; try discriminate Hoff; cbn; rewrite Hs; discriminate.
    + unfold offered in Hoff.
      destruct (step (sess w)) eqn:Hs; try discriminate Hoff.
      destruct (handleAuth_session env w) as ([-> | [-> | (m & ->)]] & _);
        cbn; rewrite ?Hs; discriminate.
    + destruct (handleFetch_session env w) as (Hs & _). cbv zeta in Hs.
      destruct Hs as [(_ & Herr & _) | Hs]; [intros _; exact Herr |].
      rewrite Hs. discriminate.
    + cbn. discriminate.
    + cbn. exact IH.
    + unfold offered in Hoff.
      destruct (step (sess w)) eqn:Hs; try discriminate Hoff.
      specialize (IH eq_refl).
      destruct (handleSave_session env w) as [-> | (u & ->)];
        cbn; intros _; exact IH.
Qed.

(** C4, amended.  On every results screen the user can reach, with each
    handler finishing before the next control is used, "Start Over" moves
    the session to [source] with [error] empty, and leaves the mix and the
    saved playlist link as they were: neither is cleared. *)
Theorem restart_keeps_mix_and_link (env : Env) (w : World) (evs : list Event) :
  Reaches env w evs ->
  step (sess w) = results ->
  let r := click handleRestart w in
  outcome r = Ok tt /\
  events r = [SetState (SetStep source)] /\
  step (sess (world r)) = source /\
  error (sess (world r)) = "" /\
  resultMix (sess (world r)) = resultMix (sess w) /\
  savedUrl (sess (world r)) = savedUrl (sess w).
Proof.
  intros Hreach Hstep. cbv zeta.
  pose proof (reachable_results_error env w evs Hreach Hstep) as Herr.
  destruct (restart_only_changes_step w)
    as (Hout & Hev & _ & Hs & Hmix & Hurl & Herr' & _).
  cbv zeta in Herr'. rewrite Herr in Herr'.
  repeat split; assumption.
Qed.

Lemma restart_keeps_mix_and_link_witness :
  let w1 := world (perform Sample.backend (Change (SetAuthMode user))
                           (mount initialSession)) in
  let w2 := world (perform Sample.backend Continue w1) in
  let w3 := world (perform Sample.backend GenerateMix w2) in
  let w4 := world (perform Sample.backend SaveToSpotify w3) in
  let r := click handleRestart w4 in
  step (sess (world r)) = source /\
  error (sess (world r)) = "" /\
  resultMix (sess (world r)) = resultMix (sess w4) /\
  savedUrl (sess (world r)) = savedUrl (sess w4).
Proof.
  intros w1 w2 w3 w4 r.
  pose proof (Reaches_mount Sample.backend) as H0.
  pose proof (Reaches_perform Sample.backend _ _ (Change (SetAuthMode user)) H0
                ltac:(vm_compute; reflexivity)) as H1.
  pose proof (Reaches_perform Sample.backend _ _ Continue H1
                ltac:(vm_compute; reflexivity)) as H2.
  pose proof (Reaches_perform Sample.backend _ _ GenerateMix H2
                ltac:(vm_compute; reflexivity)) as H3.
  pose proof (Reaches_perform Sample.backend _ _ SaveToSpotify H3
                ltac:(vm_compute; reflexivity)) as H4.
  assert (Hres : step (sess w4) = results) by (vm_compute; reflexivity).
  exact (proj2 (proj2 (restart_keeps_mix_and_link Sample.backend _ _ H4 Hres))).
Defined.

(** X11.  Once the component has left the authentication screen it never
    shows it again, whatever control is used and whatever the backend
    answers; and from then on no control on the screen changes
    [authMode]. *)
Theorem perform_never_returns_to_auth (env : Env) (c : Control) (w : World) :
  step (sess w) <> auth ->
  let w' := world (perform env c w) in
  step (sess w') <> auth /\
  (offered (sess w) c = true -> authMode (sess w') = authMode (sess w)).
Proof.
  intros Hstep. cbv zeta. destruct c as [e | | | | |]; cbn [perform world sess].
  - split.
    + destruct e; exact Hstep.
    + unfold offered. destruct (step (sess w)) eqn:Hs; try discriminate;
        [now elim Hstep | destruct e; try discriminate; reflexivity].
  - destruct (handleAuth_session env w) as ([-> | [-> | (m & ->)]] & _);
      cbn; split; auto; discriminate.
  - destruct (handleFetch_session env w) as (Hs & Hmode & _).
    split; [| intros _; exact Hmode].
    destruct Hs as [(-> & _) | ->]; discriminate.
  - cbn. split; [discriminate | reflexivity].
  - cbn. split; [exact Hstep | reflexivity].
  - destruct (handleSave_session env w) as [-> | (u & ->)];
      cbn; split; auto.
Qed.

Lemma perform_never_returns_to_auth_witness :
  step (sess (world (perform Sample.flaky GenerateMix (mount Sample.configuring))))
  <> auth.
Proof.
  refine (proj1 (perform_never_returns_to_auth
                   Sample.flaky GenerateMix (mount Sample.configuring) _)).
  discriminate.
Defined.

(** X12.  However the user drives the freshly mounted component, with
    each handler finishing before the next control is used: the component
    never rests on the processing screen; whenever it shows the results
    screen [error] is empty, so no error banner is drawn there, and
    [progress] is 100; and [progress] always lies between 0 and 100. *)
Theorem reachable_screens (env : Env) (w : World) (evs : list Event) :
  Reaches env w evs ->
  step (sess w) <> processing /\
  (step (sess w) = results ->
   error (sess w) = "" /\ errorShown (sess w) = false /\
   progress (sess w) = 100%Q) /\
  ((0 <= progress (sess w))%Q /\ (progress (sess w) <= 100)%Q).
Proof.
  induction 1 as [| w evs c _ IH Hoff].
  - cbn. repeat split; discriminate.
  - destruct IH as (Hproc & Hres & Hbounds).
    destruct c as [e | | | | |]; cbn [perform world sess].
    + unfold offered in Hoff.
      destruct (step (sess w)) eqn:Hs; try discriminate Hoff;
        destruct e; try discriminate Hoff; cbn; rewrite Hs;
        repeat split; try discriminate; apply Hbounds.
    + unfold offered in Hoff.
      destruct (step (sess w)) eqn:Hs; try discriminate Hoff.
      destruct (handleAuth_session env w) as ([-> | [-> | (m & ->)]] & _);
        cbn; rewrite ?Hs; repeat split; try discriminate; apply Hbounds.
    + pose proof (handleFetch_progress_inBounds env w Hbounds) as Hb.
      destruct (handleFetch_session env w) as (Hs & _).
      cbv zeta in Hs, Hb.
      destruct Hs as [(Hs & Herr & Hprog) | Hs].
      * split; [rewrite Hs; discriminate |]. split; [| exact Hb].
        intros _. unfold errorShown. rewrite Herr. auto.
      * split; [rewrite Hs; discriminate |]. split; [| exact Hb].
        rewrite Hs. discriminate.
    + cbn. repeat split; try discriminate; apply Hbounds.
    + cbn. auto.
    + unfold offered in Hoff.
      destruct (step (sess w)) eqn:Hs; try discriminate Hoff.
      specialize (Hres eq_refl). destruct Hres as (Herr & Hshown & Hprog).
      unfold errorShown.
      destruct (handleSave_session env w) as [-> | (u & ->)];
        cbn; rewrite ?Hs; unfold errorShown in Hshown;
        repeat split; try discriminate; auto; apply Hbounds.
Qed.

Lemma reachable_screens_witness :
  step (sess Sample.authenticated) <> processing.
Proof.
  refine (proj1 (reachable_screens Sample.backend Sample.authenticated _ _)).
  exact (Reaches_perform Sample.backend _ _ Continue
           (Reaches_perform Sample.backend _ _ (Change (SetAuthMode user))
              (Reaches_mount Sample.backend) eq_refl)
           eq_refl).
Defined.

(** X13.  Saving is reserved to user mode.  However the user drives the
    freshly mounted component, with each handler finishing before the
    next control is used: if a save request was ever sent, or [savedUrl]
    is set, then [authMode] is [user]; and while the authentication
    screen is shown nothing has been saved yet. *)
Theorem reachable_save_needs_user_mode (env : Env) (w : World) (evs : list Event) :
  Reaches env w evs ->
  ((savedUrl (sess w) <> "" \/ exists uris, In (PostSave uris) (requests evs)) ->
   authMode (sess w) = user) /\
  (step (sess w) = auth ->
   savedUrl (sess w) = "" /\ forall uris, ~ In (PostSave uris) (requests evs)).
Proof.
  induction 1 as [| w evs c _ IH Hoff].
  - cbn. split.
    + intros [H | (uris & [])]. now elim H.
    + intros _. split; [reflexivity | tauto].
  - destruct IH as (Huser & Hauth).
    assert (Hkeep : forall (r : Run unit),
               authMode (sess (world r)) = authMode (sess w) ->
               savedUrl (sess (world r)) = savedUrl (sess w) ->
               (step (sess (world r)) = auth -> step (sess w) = auth) ->
               (forall uris, ~ In (PostSave uris) (requests (events r))) ->
               ((savedUrl (sess (world r)) <> "" \/
                 exists uris, In (PostSave uris) (requests (evs ++ events r))) ->
                authMode (sess (world r)) = user) /\
               (step (sess (world r)) = auth ->
                savedUrl (sess (world r)) = "" /\
                forall uris, ~ In (PostSave uris) (requests (evs ++ events r)))).
    { intros r Hmode Hurl Hstep Hnone.
      assert (Hsame : forall uris,
                 In (PostSave uris) (requests (evs ++ events r)) ->
                 In (PostSave uris) (requests evs)).
      { intros uris Hin. rewrite requests_app in Hin.
        apply in_app_or in Hin. destruct Hin as [Hin | Hin]; [exact Hin |].
        now elim (Hnone uris). }
      rewrite Hmode, Hurl. split.
      - intros [H | (uris & H)]; apply Huser; [now left |].
        right. exists uris. now apply Hsame.
      - intros Hs. destruct (Hauth (Hstep Hs)) as (Hu & Hno).
        split; [exact Hu |]. intros uris Hin. exact (Hno uris (Hsame uris Hin)). }
    destruct c as [e | | | | |]; cbn [perform].
    + destruct e as [m | m | v | v].
      * unfold offered in Hoff.
        destruct (step (sess w)) eqn:Hs; try discriminate Hoff.
        destruct (Hauth eq_refl) as (Hu & Hno).
        cbn [world sess events edit savedUrl authMode step].
        rewrite app_nil_r. split.
        -- intros [H | (uris & H)]; [now elim H | now elim (Hno uris)].
        -- intros _. split; assumption.
      * apply Hkeep; cbn; auto.
      * apply Hkeep; cbn; auto.
      * apply Hkeep; cbn; auto.
    + destruct (handleAuth_session env w) as (Hs & Hnone).
      unfold offered in Hoff.
      destruct (step (sess w)) eqn:Hstep; try discriminate Hoff.
      apply Hkeep; auto;
        destruct Hs as [-> | [-> | (m & ->)]]; reflexivity.
    + destruct (handleFetch_session env w) as (Hs & Hmode & Hurl & Hnone).
      apply Hkeep; auto.
      intros Hauth'. destruct Hs as [(Hs & _) | Hs];
        rewrite Hs in Hauth'; discriminate Hauth'.
    + apply Hkeep; cbn; auto. discriminate.
    + apply Hkeep; cbn; auto.
    + unfold offered in Hoff.
      destruct (step (sess w)) eqn:Hstep; try discriminate Hoff.
      destruct (authMode (sess w)) eqn:Hmode; [discriminate Hoff |].
      assert (Hmode' : authMode (sess (world (click (handleSave env) w))) = user).
      { destruct (handleSave_session env w) as [-> | (u & ->)]; exact Hmode. }
      split; [intros _; exact Hmode' |].
      intros Hs. exfalso.
      destruct (handleSave_session env w) as [Heq | (u & Heq)];
        rewrite Heq in Hs; cbn in Hs; rewrite Hstep in Hs; discriminate Hs.
Qed.

Lemma reachable_save_needs_user_mode_witness :
  let w1 := world (perform Sample.backend (Change (SetAuthMode user))
                           (mount initialSession)) in
  let w2 := world (perform Sample.backend Continue w1) in
  let w3 := world (perform Sample.backend GenerateMix w2) in
  let w4 := world (perform Sample.backend SaveToSpotify w3) in
  savedUrl (sess w4) <> "" /\ authMode (sess w4) = user.
Proof.
  intros w1 w2 w3 w4.
  pose proof (Reaches_mount Sample.backend) as H0.
  pose proof (Reaches_perform Sample.backend _ _ (Change (SetAuthMode user)) H0
                ltac:(vm_compute; reflexivity)) as H1.
  pose proof (Reaches_perform Sample.backend _ _ Continue H1
                ltac:(vm_compute; reflexivity)) as H2.
  pose proof (Reaches_perform Sample.backend _ _ GenerateMix H2
                ltac:(vm_compute; reflexivity)) as H3.
  pose proof (Reaches_perform Sample.backend _ _ SaveToSpotify H3
                ltac:(vm_compute; reflexivity)) as H4.
  assert (Hurl : savedUrl (sess w4) <> "") by (vm_compute; discriminate).
  split; [exact Hurl |].
  exact (proj1 (reachable_save_needs_user_mode Sample.backend _ _ H4)
               (or_introl Hurl)).
Defined.

(* ------------------------------------------------------------------ *)
(** ** What a new run starts from *)

(** The run of the loop does not look at the session: its outcome, its
    events and the number of requests it sends depend only on the tracks
    and on the number of requests sent before. *)
Lemma forLoop_session_blind env total raw : forall i processed w1 w2,
  calls w1 = calls w2 ->
  outcome (forLoop env total i raw processed w1)
    = outcome (forLoop env total i raw processed w2) /\
  events (forLoop env total i raw processed w1)
    = events (forLoop env total i raw processed w2) /\
  calls (world (forLoop env total i raw processed w1))
    = calls (world (forLoop env total i raw processed w2)).
Proof.
  induction raw as [| t rest IH]; intros i processed w1 w2 Hcalls.
  - cbn. auto.
  - rewrite !forLoop_cons. cbv zeta. rewrite Hcalls.
    destruct (features env (calls w2) t) as [featData | m].
    + cbn [outcome world events].
      match goal with
      | |- outcome (forLoop _ _ _ _ ?p ?wa) = outcome (forLoop _ _ _ _ ?p ?wb) /\ _ =>
          destruct (IH (S i) p wa wb eq_refl) as (Ho & He & Hc)
      end.
      rewrite Ho, He, Hc. auto.
    + cbn. auto.
Qed.

(** X14.  A run of [handleFetch] is decided by [authMode], [sourceMode],
    [inputValue] and [mixLength] alone: from two sessions that agree on
    these four, and with the same backend answers, it emits exactly the
    same events, requests and setter calls alike.  Nothing left over from
    an earlier attempt, be it tracks, mix, progress, status, error, saved
    link or step, finds its way into a request or a setter call. *)
Theorem handleFetch_inputs_only (env : Env) (w1 w2 : World) :
  calls w1 = calls w2 ->
  authMode (sess w1) = authMode (sess w2) ->
  sourceMode (sess w1) = sourceMode (sess w2) ->
  inputValue (sess w1) = inputValue (sess w2) ->
  mixLength (sess w1) = mixLength (sess w2) ->
  events (click (handleFetch env) w1) = events (click (handleFetch env) w2) /\
  calls (world (click (handleFetch env) w1))
    = calls (world (click (handleFetch env) w2)).
Proof.
  intros Hcalls Hauth Hmode Hinput Hlen.
  assert (Hreq : sourceRequest (sess w1) = sourceRequest (sess w2)).
  { unfold sourceRequest. now rewrite Hauth, Hmode, Hinput. }
  assert (Hans : sourceAnswer env (sess w1) (calls w1)
                 = sourceAnswer env (sess w2) (calls w2)).
  { unfold sourceAnswer. now rewrite Hauth, Hmode, Hinput, Hcalls. }
  destruct (sourceAnswer env (sess w2) (calls w2)) as [data | m] eqn:Hsrc.
  - assert (Henrich : present (SourceData.error data) = false ->
              events (click (handleFetch env) w1) = events (click (handleFetch env) w2) /\
              calls (world (click (handleFetch env) w1))
                = calls (world (click (handleFetch env) w2))).
    { intros Herr.
      rewrite (handleFetch_enrich env w1 data Hans Herr).
      rewrite (handleFetch_enrich env w2 data Hsrc Herr). cbv zeta.
      destruct (forLoop_session_blind env (List.length (SourceData.tracks data))
                  (SourceData.tracks data) 0 []
                  (mkWorld (opened (sess w1)) (S (calls w1)))
                  (mkWorld (opened (sess w2)) (S (calls w2))))
        as (Ho & He & Hc); [cbn; now rewrite Hcalls |].
      fold (enrich env (SourceData.tracks data)) in Ho, He, Hc.
      destruct (enrich env (SourceData.tracks data)
                       (mkWorld (opened (sess w1)) (S (calls w1)))) as [o1 wL1 ev1].
      destruct (enrich env (SourceData.tracks data)
                       (mkWorld (opened (sess w2)) (S (calls w2)))) as [o2 wL2 ev2].
      cbn [outcome world events] in *. subst o2 ev2.
      rewrite Hreq, Hlen, Hc.
      destruct o1 as [processed | m]; [| split; reflexivity].
      destruct (solve env (calls wL2) processed (mixLength (sess w2)))
        as [[mix | message] | m]; split; reflexivity. }
    destruct (SourceData.error data) as [[| c rest] |] eqn:He.
    + apply Henrich. reflexivity.
    + rewrite (handleFetch_source_error env w1 data _ Hans He eq_refl).
      rewrite (handleFetch_source_error env w2 data _ Hsrc He eq_refl).
      cbn [events world calls]. rewrite Hreq, Hcalls. split; reflexivity.
    + apply Henrich. reflexivity.
  - rewrite (handleFetch_source_fault env w1 m Hans).
    rewrite (handleFetch_source_fault env w2 m Hsrc).
    cbn [events world calls]. rewrite Hreq, Hcalls. split; reflexivity.
Qed.

Lemma handleFetch_inputs_only_witness :
  events (click (handleFetch Sample.flaky) (mount Sample.configuring))
  = events (click (handleFetch Sample.flaky)
                  (mkWorld (apply (SetError "stale")
                              (apply (SetSavedUrl "https://open.example/playlist/1")
                                 (apply (SetTracks (map Sample.enriched Sample.rawTracks))
                                    Sample.configuring))) 0)).
Proof.
  exact (proj1 (handleFetch_inputs_only
                  Sample.flaky (mount Sample.configuring) _
                  eq_refl eq_refl eq_refl eq_refl eq_refl)).
Defined.

(** X15.  "Start Over" followed by "Generate Mix": whatever the backend
    answers, [savedUrl] is still what it was on the results screen the
    user left.  A link saved for an earlier mix therefore survives onto
    the next results screen, next to a mix that was never saved. *)
Theorem restart_then_generate_keeps_savedUrl (env : Env) (w : World) :
  let w1 := world (perform env StartOver w) in
  let w2 := world (perform env GenerateMix w1) in
  savedUrl (sess w2) = savedUrl (sess w) /\
  (forall uris, ~ In (PostSave uris)
                     (requests (events (perform env StartOver w)
                                ++ events (perform env GenerateMix w1)))) /\
  (step (sess w2) = results \/
   step (sess w2) = source /\ resultMix (sess w2) = resultMix (sess w)).
Proof.
  cbv zeta. cbn [perform].
  set (w1 := world (click handleRestart w)).
  assert (Hw1 : sess w1 = apply (SetStep source) (sess w)) by reflexivity.
  destruct (handleFetch_session env w1) as (Hs & _ & Hurl & Hnone).
  cbv zeta in Hs, Hurl, Hnone.
  split; [rewrite Hurl, Hw1; reflexivity |]. split.
  - intros uris Hin. rewrite requests_app in Hin. cbn in Hin.
    exact (Hnone uris Hin).
  - destruct Hs as [(Hs & _) | Hs]; [now left |]. right. split; [exact Hs |].
    destruct (handleFetch_source_cases env w1)
      as [(m & Hrun & _) | (data & Hsrc & Herr)].
    + rewrite Hrun. cbn [world sess]. rewrite Hw1. reflexivity.
    + destruct (handleFetch_shape env w1 data Hsrc Herr)
        as (sL & evL & Hframe & _ & _ & _ & Hrun).
      cbv zeta in Hrun. rewrite Hrun in Hs |- *.
      pose proof (sameButProgress_opened (sess w1) sL Hframe) as HsL.
      destruct (firstThrow _) as [m |].
      * cbn [world sess]. rewrite HsL, Hw1. reflexivity.
      * cbn [world sess] in Hs |- *.
        destruct (solve _ _ _ _) as [[mix | message] | m];
          rewrite HsL in Hs |- *; rewrite Hw1;
          [discriminate Hs | reflexivity | reflexivity].
Qed.
